(** * The reference-counted loading store of react-hook-loading-spinner

    A shallow embedding of [src/hooks/useLoading.ts]: the zustand store
    ([loadingCount], [overrideState], [localCounters]), its actions
    ([startLoading], [stopLoading], [overrideLoading] and the queries), the
    events they emit on [loadingEventTarget], and the per-instance wrappers
    of the [useLoading] hook ([localStartLoading], [localStopLoading],
    [asyncUseLoading]).

    Modelling choices.
    - A JavaScript [number] that only ever holds a count is an integer of
      [Z]; the two agree as long as a count stays below 2^53, where adding
      and subtracting one are exact.
    - [instanceId?: string] is an [option string]; [None] is [undefined].
      The code tests the key with [if (instanceId)], which is false for
      [undefined] and for the empty string: that test is [supplied].
    - [Record<string, number>] is a [gmap string Z]; a missing property
      reads as [undefined], which the code turns into 0 with [?? 0].
      This is the store for keys that name no member of
      [Object.prototype]: [localCounters] is a plain object, so for a key
      such as [constructor] the read yields the inherited member and not
      [undefined].  What the code does with such keys is modelled apart
      ([JsValue], [jsStartLoading], [jsStopLoading]), with a proof that the
      counters of that model are those of this store once a call with such
      a key is read as the call without a key ([withoutInheritedKey]);
      statements about the value of a local counter say [ordinaryKey]
      where they need it.
    - [get], [set] and [loadingEventTarget.emit] are the operations of a
      state monad over the store that also logs the emitted events in
      order.  Listeners are outside the store and are not modelled. *)

From Stdlib Require Import ZArith Lia.
From stdpp Require Import gmap strings list fin_maps.

Open Scope Z_scope.


(** * Definitions *)

(** ** Data model *)

(** [LoadingEvents]: the payload of [change], and the three events. *)
Record ChangePayload := {
  payload_isLoading : bool;
  isOverrideState : bool
}.

Inductive LoadingEvent :=
  | change (payload : ChangePayload)
  | start
  | stop.

(** The state part of [interface Store]. *)
Record Store := {
  loadingCount : Z;
  overrideState : option bool;
  localCounters : gmap string Z
}.

(** [create<Store>()(... loadingCount: 0, overrideState: null, localCounters: {} ...)] *)
Definition initialStore : Store :=
  {| loadingCount := 0; overrideState := None; localCounters := ∅ |}.

(** ** The store monad: [get], [set], [emit] *)

Definition M (A : Type) : Type := Store → A * Store * list LoadingEvent.

#[global] Instance M_ret : MRet M := λ A a st, (a, st, []).

#[global] Instance M_bind : MBind M := λ A B k m st,
  let '(a, st1, ev1) := m st in
  let '(b, st2, ev2) := k a st1 in
  (b, st2, ev1 ++ ev2).

(** zustand's [get()]: the current state. *)
Definition get : M Store := λ st, (st, st, []).

(** zustand's [set(fn)]: the state with the fields [fn] returns replaced;
    [f] is the whole new state. *)
Definition set (f : Store → Store) : M unit := λ st, (tt, f st, []).

(** Modelled from the spec: [loadingEventTarget.emit(name, payload)], a
    method of the [EventEmitter] class of [@/utils/EventEmitter], which is
    not among the sources.  The spec has [emit] call the registered
    listeners synchronously, in order, and return; the model records the
    emission and registers no listener. *)
Definition emit (e : LoadingEvent) : M unit := λ st, (tt, st, [e]).

Definition result {A} (m : M A) (st : Store) : A := (m st).1.1.

Definition state_after {A} (m : M A) (st : Store) : Store := (m st).1.2.

Definition emitted {A} (m : M A) (st : Store) : list LoadingEvent := (m st).2.

(** ** Helpers for JavaScript idioms *)

(** [if (instanceId)]: the key when it is truthy, that is neither
    [undefined] nor the empty string. *)
Definition supplied (instanceId : option string) : option string :=
  match instanceId with
  | Some (String _ _ as id) => Some id
  | _ => None
  end.

(** [counters[id] ?? 0] *)
Definition counterOr0 (counters : gmap string Z) (id : string) : Z :=
  default 0 (counters !! id).

(** ** The store *)

(** [isLoading() { return get().overrideState ?? (get().loadingCount > 0) }] *)
Definition isLoading : M bool :=
  st ← get;
  mret (match overrideState st with
        | Some b => b
        | None => 0 <? loadingCount st
        end).

Definition isGlobalLoading : M bool := isLoading.

Definition emitChange (newIsLoading : bool) (isOverride : bool) : M unit :=
  emit (change {| payload_isLoading := newIsLoading; isOverrideState := isOverride |}).

Definition startLoading (instanceId : option string) : M unit :=
  prevIsLoading ← isLoading;
  set (λ state, {| loadingCount := loadingCount state + 1;
                   overrideState := overrideState state;
                   localCounters := localCounters state |});;
  match supplied instanceId with
  | Some id =>
      set (λ state, {| loadingCount := loadingCount state;
                       overrideState := overrideState state;
                       localCounters :=
                         <[id := counterOr0 (localCounters state) id + 1]>
                           (localCounters state) |})
  | None => mret tt
  end;;
  newIsLoading ← isLoading;
  (if newIsLoading && negb prevIsLoading then emit start else mret tt);;
  st ← get;
  emitChange newIsLoading (bool_decide (overrideState st ≠ None)).

(** In the guarded branch the code reads [state.localCounters[instanceId]]
    without [?? 0]; the guard [localCounter > 0] was computed from the same
    state, so the entry is present there (see [stopLoading_entry_present]). *)
Definition stopLoading (instanceId : option string) : M unit :=
  prevIsLoading ← isLoading;
  st ← get;
  let localCounter :=
    match supplied instanceId with
    | Some id => counterOr0 (localCounters st) id
    | None => 0
    end in
  match supplied instanceId with
  | Some id =>
      if 0 <? localCounter then
        set (λ state, {| loadingCount := Z.max 0 (loadingCount state - 1);
                         overrideState := overrideState state;
                         localCounters :=
                           <[id := Z.max 0 (counterOr0 (localCounters state) id - 1)]>
                             (localCounters state) |})
      else mret tt
  | None => mret tt
  end;;
  newIsLoading ← isLoading;
  (if negb newIsLoading && prevIsLoading then emit stop else mret tt);;
  st ← get;
  emitChange newIsLoading (bool_decide (overrideState st ≠ None)).

Definition overrideLoading (state : option bool) : M unit :=
  prevIsLoading ← isLoading;
  set (λ st, {| loadingCount := loadingCount st;
                overrideState := state;
                localCounters := localCounters st |});;
  newIsLoading ← isLoading;
  (if newIsLoading && negb prevIsLoading then emit start
   else if negb newIsLoading && prevIsLoading then emit stop
   else mret tt);;
  emitChange newIsLoading (bool_decide (state ≠ None)).

Definition getLocalCounter (instanceId : string) : M Z :=
  st ← get; mret (counterOr0 (localCounters st) instanceId).

Definition isLocalLoading (instanceId : string) : M bool :=
  st ← get; mret (0 <? counterOr0 (localCounters st) instanceId).

(** ** The hook: per-instance wrappers

    [useLoading] takes its [instanceId] from React's [useId] (and
    [ssrLoading] from [randomUUID]); here it is a parameter. *)

(** How a promise settles: [await] either yields the value or throws. *)
Inductive Settled (R E : Type) :=
  | fulfilled (value : R)
  | rejected (reason : E).
Arguments fulfilled {R E} value.
Arguments rejected {R E} reason.

Section Hook.
Variable instanceId : string.

Definition localStartLoading : M unit :=
  startLoading (Some instanceId).

Definition localStopLoading : M unit :=
  active ← isLocalLoading instanceId;
  if (active : bool) then stopLoading (Some instanceId) else mret tt.

(** [localStartLoading(); try { return await asyncFunction } finally
    { localStopLoading() }].  While the promise is pending the caller is
    suspended and other code runs against the store: [meanwhile].  The
    [finally] block runs on both exits, after which the value is returned
    or the reason thrown again. *)
Definition asyncUseLoading {R E} (asyncFunction : Settled R E)
    (meanwhile : M unit) : M (Settled R E) :=
  localStartLoading;;
  meanwhile;;
  match asyncFunction with
  | fulfilled value => localStopLoading;; mret (fulfilled value)
  | rejected reason => localStopLoading;; mret (rejected reason)
  end.
End Hook.

(** ** Sequences of calls on the store *)

Inductive Call :=
  | CallStart (instanceId : option string)
  | CallStop (instanceId : option string)
  | CallOverride (state : option bool).

#[global] Instance Call_eq_dec : EqDecision Call.
Proof. solve_decision. Defined.

Definition perform (c : Call) : M unit :=
  match c with
  | CallStart instanceId => startLoading instanceId
  | CallStop instanceId => stopLoading instanceId
  | CallOverride state => overrideLoading state
  end.

Fixpoint performAll (calls : list Call) : M unit :=
  match calls with
  | [] => mret tt
  | c :: rest => perform c;; performAll rest
  end.

(** The states the store can be in: those some sequence of calls on its
    actions leads to from [initialStore]. *)
Inductive reachable : Store → Prop :=
  | reachable_initial : reachable initialStore
  | reachable_perform st c :
      reachable st → reachable (state_after (perform c) st).

(** The key a call acts on, as the code sees it. *)
Definition callKey (c : Call) : option string :=
  match c with
  | CallStart instanceId | CallStop instanceId => supplied instanceId
  | CallOverride _ => None
  end.

(** ** Observations *)

(** The derived boolean, as a function of the state. *)
Definition derive (st : Store) : bool := result isLoading st.

Definition isChange (e : LoadingEvent) : bool :=
  match e with change _ => true | _ => false end.

(** The sum of all local counters. *)
Definition sumCounters (counters : gmap string Z) : Z :=
  map_fold (λ _ n acc, n + acc) 0 counters.

(** A call is a start without a key when the code's test [if (instanceId)]
    fails in [startLoading]. *)
Definition isUnkeyedStart (c : Call) : bool :=
  match c with
  | CallStart instanceId => bool_decide (supplied instanceId = None)
  | _ => false
  end.

Definition unkeyedStarts (calls : list Call) : Z :=
  Z.of_nat (length (filter (λ c, isUnkeyedStart c = true) calls)).

(** ** The state after each action, in closed form *)

Definition startedStore (st : Store) (instanceId : option string) : Store :=
  {| loadingCount := loadingCount st + 1;
     overrideState := overrideState st;
     localCounters :=
       match supplied instanceId with
       | Some id => <[id := counterOr0 (localCounters st) id + 1]> (localCounters st)
       | None => localCounters st
       end |}.

(** The guard [instanceId && localCounter > 0] of [stopLoading]. *)
Definition stopGate (st : Store) (instanceId : option string) : bool :=
  match supplied instanceId with
  | Some id => 0 <? counterOr0 (localCounters st) id
  | None => false
  end.

Definition stoppedStore (st : Store) (instanceId : option string) : Store :=
  match supplied instanceId with
  | Some id =>
      if 0 <? counterOr0 (localCounters st) id then
        {| loadingCount := Z.max 0 (loadingCount st - 1);
           overrideState := overrideState st;
           localCounters :=
             <[id := Z.max 0 (counterOr0 (localCounters st) id - 1)]> (localCounters st) |}
      else st
  | None => st
  end.

Definition overriddenStore (st : Store) (state : option bool) : Store :=
  {| loadingCount := loadingCount st;
     overrideState := state;
     localCounters := localCounters st |}.

(** The state after a call, call by call. *)
Definition next (st : Store) (c : Call) : Store :=
  match c with
  | CallStart instanceId => startedStore st instanceId
  | CallStop instanceId => stoppedStore st instanceId
  | CallOverride state => overriddenStore st state
  end.

(** ** The balance invariant *)

Definition nonnegCounters (m : gmap string Z) : Prop := ∀ id n, m !! id = Some n → 0 ≤ n.

Record balanced (st : Store) (u : Z) : Prop := {
  balanced_count : loadingCount st = sumCounters (localCounters st) + u;
  balanced_unkeyed : 0 ≤ u;
  balanced_nonneg : nonnegCounters (localCounters st);
  balanced_empty_key : localCounters st !! EmptyString = None
}.

(** ** Sample runs *)

(** Two callers: [a] started once, and one start came without a key. *)
Definition sampleStore : Store :=
  state_after (performAll [CallStart (Some "a"%string); CallStart None]) initialStore.

(** [B] is loading; [A] never started and stops twice. *)
Definition orphanStops : list Call :=
  [CallStart (Some "b"%string); CallStop (Some "a"%string); CallStop (Some "a"%string)].

(** The run of C7 as stated: all four calls without a key. *)
Definition unkeyedRun : list Call :=
  [CallStart None; CallStart None; CallStop None; CallStop None].

(** ** The [Loading] component

    [components/Loading.tsx]: [useEffect(() => { if (isLoading)
    startLoading() else stopLoading(); return () => { if (isLoading)
    stopLoading() } }, [isLoading])], with [startLoading] and [stopLoading]
    the wrappers of the component's own hook instance. *)

Section LoadingComponent.
Variable instanceId : string.

(** The body of the effect, for the value of the prop it closes over. *)
Definition loadingEffect (isLoading : bool) : M unit :=
  if isLoading then localStartLoading instanceId else localStopLoading instanceId.

(** The cleanup the effect returns, closing over the same value. *)
Definition loadingCleanup (isLoading : bool) : M unit :=
  if isLoading then localStopLoading instanceId else mret tt.

(** React's schedule for an effect: before the effect runs again the
    cleanup of its previous run is called.  [later] lists the values of
    [isLoading] at the further runs of the effect; the result is the value
    the last run closed over. *)
Fixpoint loadingRerun (current : bool) (later : list bool) : M bool :=
  match later with
  | [] => mret current
  | isLoading :: rest =>
      loadingCleanup current;; loadingEffect isLoading;; loadingRerun isLoading rest
  end.

(** The component from its first render on, while it stays mounted. *)
Definition loadingMounted (first : bool) (later : list bool) : M bool :=
  loadingEffect first;; loadingRerun first later.

(** The whole life of the component: on unmount React calls the cleanup
    of the last run. *)
Definition loadingUnmounted (first : bool) (later : list bool) : M unit :=
  current ← loadingMounted first later;
  loadingCleanup current.
End LoadingComponent.

(** ** Counting calls and events *)

(** [m] run [n] times in a row. *)
Fixpoint repeatM (n : nat) (m : M unit) : M unit :=
  match n with
  | O => mret tt
  | S n' => m;; repeatM n' m
  end.

Definition isStartCall (c : Call) : bool :=
  match c with CallStart _ => true | _ => false end.

Definition isStopCall (c : Call) : bool :=
  match c with CallStop _ => true | _ => false end.

Definition isOverrideCall (c : Call) : bool :=
  match c with CallOverride _ => true | _ => false end.

Definition countCalls (p : Call → bool) (calls : list Call) : Z :=
  Z.of_nat (length (filter (λ c, p c = true) calls)).

(** The starts, and the stops, that carry the key [id] past the code's
    test [if (instanceId)]. *)
Definition isStartOf (id : string) (c : Call) : bool :=
  isStartCall c && bool_decide (callKey c = Some id).

Definition isStopOf (id : string) (c : Call) : bool :=
  isStopCall c && bool_decide (callKey c = Some id).

(** The argument of the last [overrideLoading] of a run, if it has one. *)
Fixpoint lastOverride (calls : list Call) : option (option bool) :=
  match calls with
  | [] => None
  | c :: rest =>
      match lastOverride rest with
      | Some state => Some state
      | None => match c with CallOverride state => Some state | _ => None end
      end
  end.

Definition isStart (e : LoadingEvent) : bool :=
  match e with start => true | _ => false end.

Definition isStop (e : LoadingEvent) : bool :=
  match e with stop => true | _ => false end.

Definition countEvents (p : LoadingEvent → bool) (events : list LoadingEvent) : Z :=
  Z.of_nat (length (filter (λ e, p e = true) events)).

(** [m] gives back what it takes: run on a state with non-negative
    counters, it leaves the global counter and the local counter of [id]
    as they were. *)
Definition keepsCounts {A} (id : string) (m : M A) : Prop :=
  ∀ st,
    0 ≤ loadingCount st →
    0 ≤ counterOr0 (localCounters st) id →
    loadingCount (state_after m st) = loadingCount st
    ∧ counterOr0 (localCounters (state_after m st)) id
        = counterOr0 (localCounters st) id.

(** ** Keys that name a member of [Object.prototype]

    [localCounters] starts as the object literal [{}] and is rebuilt with
    the spread syntax, so it always is a plain object: reading
    [localCounters[id]] finds the object's own property when it has one
    and otherwise whatever [Object.prototype] has under that name. *)

(** The property names of [Object.prototype] (ECMAScript, Annex B
    included). *)
Definition objectPrototypeMembers : list string :=
  ["constructor"; "__defineGetter__"; "__defineSetter__"; "hasOwnProperty";
   "__lookupGetter__"; "__lookupSetter__"; "isPrototypeOf";
   "propertyIsEnumerable"; "toString"; "valueOf"; "__proto__";
   "toLocaleString"]%string.

Definition ordinaryKey (id : string) : Prop := id ∉ objectPrototypeMembers.

(** A call whose key, if it carries one, is ordinary. *)
Definition ordinaryCall (c : Call) : Prop :=
  ∀ id, callKey c = Some id → ordinaryKey id.

(** A count on which adding and subtracting one are exact in a JavaScript
    [number]. *)
Definition safeInteger (n : Z) : Prop := Z.abs n < 2 ^ 53.

(** What a property read on [localCounters] can yield, and what the code's
    arithmetic makes of it: a number; [NaN]; the function or object
    inherited from [Object.prototype] under [member]; or a string, namely
    the text of that member followed by [S ones] characters [1] (each
    [+ 1] on a string or a function concatenates). *)
Inductive JsValue :=
  | JsNumber (n : Z)
  | JsNaN
  | JsInherited (member : string)
  | JsText (member : string) (ones : nat).

(** The two counter fields of the store, with the entries as JavaScript
    has them. *)
Record JsCounters := {
  jsLoadingCount : Z;
  jsLocalCounters : gmap string JsValue
}.

Definition jsInitial : JsCounters :=
  {| jsLoadingCount := 0; jsLocalCounters := ∅ |}.

(** [counters[id]]: the own property, else the inherited member, else
    [undefined]. *)
Definition jsRead (counters : gmap string JsValue) (id : string) : option JsValue :=
  match counters !! id with
  | Some v => Some v
  | None =>
      if bool_decide (id ∈ objectPrototypeMembers) then Some (JsInherited id) else None
  end.

(** [v ?? 0] *)
Definition jsOr0 (v : option JsValue) : JsValue := default (JsNumber 0) v.

(** [v + 1]: addition on numbers, concatenation once a string, a function
    or an object is involved. *)
Definition jsPlus1 (v : JsValue) : JsValue :=
  match v with
  | JsNumber n => JsNumber (n + 1)
  | JsNaN => JsNaN
  | JsInherited member => JsText member 0
  | JsText member ones => JsText member (S ones)
  end.

(** [v - 1]: [undefined], a function, an object and these strings all
    convert to [NaN]. *)
Definition jsMinus1 (v : option JsValue) : JsValue :=
  match v with
  | Some (JsNumber n) => JsNumber (n - 1)
  | _ => JsNaN
  end.

(** [Math.max(0, v)] *)
Definition jsMax0 (v : JsValue) : JsValue :=
  match v with
  | JsNumber n => JsNumber (Z.max 0 n)
  | _ => JsNaN
  end.

(** [v > 0]: false unless [v] is a positive number; the text of a function
    or of [[object Object]] converts to [NaN], and [NaN > 0] is false. *)
Definition jsPositive (v : JsValue) : bool :=
  match v with
  | JsNumber n => 0 <? n
  | _ => false
  end.

(** The two [set] calls of [startLoading]. *)
Definition jsStartLoading (instanceId : option string) (st : JsCounters) : JsCounters :=
  let st1 := {| jsLoadingCount := jsLoadingCount st + 1;
                jsLocalCounters := jsLocalCounters st |} in
  match supplied instanceId with
  | Some id =>
      {| jsLoadingCount := jsLoadingCount st1;
         jsLocalCounters :=
           <[id := jsPlus1 (jsOr0 (jsRead (jsLocalCounters st1) id))]>
             (jsLocalCounters st1) |}
  | None => st1
  end.

(** The guarded [set] call of [stopLoading]. *)
Definition jsStopLoading (instanceId : option string) (st : JsCounters) : JsCounters :=
  let localCounter :=
    match supplied instanceId with
    | Some id => jsOr0 (jsRead (jsLocalCounters st) id)
    | None => JsNumber 0
    end in
  match supplied instanceId with
  | Some id =>
      if jsPositive localCounter then
        {| jsLoadingCount := Z.max 0 (jsLoadingCount st - 1);
           jsLocalCounters :=
             <[id := jsMax0 (jsMinus1 (jsRead (jsLocalCounters st) id))]>
               (jsLocalCounters st) |}
      else st
  | None => st
  end.

Definition jsGetLocalCounter (instanceId : string) (st : JsCounters) : JsValue :=
  jsOr0 (jsRead (jsLocalCounters st) instanceId).

Definition jsIsLocalLoading (instanceId : string) (st : JsCounters) : bool :=
  jsPositive (jsOr0 (jsRead (jsLocalCounters st) instanceId)).

(** [overrideLoading] sets no counter. *)
Definition jsPerform (c : Call) (st : JsCounters) : JsCounters :=
  match c with
  | CallStart instanceId => jsStartLoading instanceId st
  | CallStop instanceId => jsStopLoading instanceId st
  | CallOverride _ => st
  end.

Definition jsPerformAll (calls : list Call) (st : JsCounters) : JsCounters :=
  foldl (λ st c, jsPerform c st) st calls.

(** The counters of the two models are the same: the same global
    counter, the same own entries, each of them a number, and none under
    a name of [Object.prototype]. *)
Definition sameCounters (js : JsCounters) (st : Store) : Prop :=
  jsLoadingCount js = loadingCount st
  ∧ jsLocalCounters js = JsNumber <$> localCounters st
  ∧ ∀ id, is_Some (localCounters st !! id) → ordinaryKey id.

(** A call as the counters see it: for a key that names a member of
    [Object.prototype] the entry never becomes a number, and the call acts
    on the counters as the same call without a key does (proved below). *)
Definition keyIsInherited (instanceId : option string) : bool :=
  match supplied instanceId with
  | Some id => bool_decide (id ∈ objectPrototypeMembers)
  | None => false
  end.

Definition withoutInheritedKey (c : Call) : Call :=
  match c with
  | CallStart instanceId =>
      if keyIsInherited instanceId then CallStart None else CallStart instanceId
  | CallStop instanceId =>
      if keyIsInherited instanceId then CallStop None else CallStop instanceId
  | CallOverride state => CallOverride state
  end.

(** The own entry of [id], if any, is text. *)
Definition textEntry (id : string) (js : JsCounters) : Prop :=
  ∀ v, jsLocalCounters js !! id = Some v → ∃ ones, v = JsText id ones.

(** The counters as JavaScript has them follow the store over integers:
    the same global counter; under an ordinary key the same entry, a
    number; under a name of [Object.prototype] no entry in the store and
    at most a string in JavaScript. *)
Definition followsStore (js : JsCounters) (st : Store) : Prop :=
  jsLoadingCount js = loadingCount st
  ∧ (∀ id, ordinaryKey id →
       jsLocalCounters js !! id = JsNumber <$> localCounters st !! id)
  ∧ (∀ id, id ∈ objectPrototypeMembers →
       localCounters st !! id = None ∧ textEntry id js).

(** * Lemmas *)

(** ** Sequencing in the store monad *)

Section Monad.
Implicit Types (st : Store).

Lemma state_after_bind {A B} (m : M A) (k : A → M B) st :
  state_after (m ≫= k) st = state_after (k (result m st)) (state_after m st).
Proof.
  unfold state_after, result, mbind, M_bind.
  destruct (m st) as [[a st1] ev1]. simpl.
  by destruct (k a st1) as [[b st2] ev2].
Qed.

Lemma result_bind {A B} (m : M A) (k : A → M B) st :
  result (m ≫= k) st = result (k (result m st)) (state_after m st).
Proof.
  unfold state_after, result, mbind, M_bind.
  destruct (m st) as [[a st1] ev1]. simpl.
  by destruct (k a st1) as [[b st2] ev2].
Qed.

Lemma bind_cong_r {A B} (m : M A) (k1 k2 : A → M B) st :
  (∀ a, k1 a (state_after m st) = k2 a (state_after m st)) →
  (m ≫= k1) st = (m ≫= k2) st.
Proof.
  unfold state_after, mbind, M_bind. destruct (m st) as [[a st1] ev1]. simpl.
  intros Hk. by rewrite Hk.
Qed.

Lemma bind_cong_l {A B} (m1 m2 : M A) (k : A → M B) st :
  m1 st = m2 st → (m1 ≫= k) st = (m2 ≫= k) st.
Proof. unfold mbind, M_bind. by intros ->. Qed.

End Monad.

(** ** What each action does to the state *)

Section Actions.
Implicit Types (st : Store) (instanceId : option string) (id : string).

Lemma derive_eq st :
  derive st = match overrideState st with
              | Some b => b
              | None => 0 <? loadingCount st
              end.
Proof. reflexivity. Qed.

Lemma isLoading_pure st : state_after isLoading st = st ∧ emitted isLoading st = [].
Proof. done. Qed.

Lemma getLocalCounter_result st id :
  result (getLocalCounter id) st = counterOr0 (localCounters st) id.
Proof. reflexivity. Qed.

Lemma supplied_Some instanceId id :
  supplied instanceId = Some id → instanceId = Some id ∧ id ≠ EmptyString.
Proof.
  destruct instanceId as [[|a s]|]; simpl; [discriminate| |discriminate].
  intros [= <-]. done.
Qed.

Lemma supplied_None instanceId :
  supplied instanceId = None ↔ instanceId = None ∨ instanceId = Some EmptyString.
Proof.
  destruct instanceId as [[|a s]|]; simpl; split; try done; auto.
  intros [|]; discriminate.
Qed.

Lemma supplied_nonempty id : id ≠ EmptyString → supplied (Some id) = Some id.
Proof. by destruct id. Qed.

Lemma startLoading_run st instanceId :
  startLoading instanceId st =
    (tt, startedStore st instanceId,
     (if derive (startedStore st instanceId) && negb (derive st) then [start] else [])
     ++ [change {| payload_isLoading := derive (startedStore st instanceId);
                   isOverrideState := bool_decide (overrideState st ≠ None) |}]).
Proof.
  unfold startLoading, startedStore, derive, result, isLoading, emitChange.
  unfold mbind, M_bind, mret, M_ret, get, set, emit. simpl.
  destruct (supplied instanceId); simpl;
    destruct (overrideState st) as [[]|]; simpl;
    repeat (destruct (0 <? _); simpl); reflexivity.
Qed.

Lemma stopLoading_run st instanceId :
  stopLoading instanceId st =
    (tt, stoppedStore st instanceId,
     (if negb (derive (stoppedStore st instanceId)) && derive st then [stop] else [])
     ++ [change {| payload_isLoading := derive (stoppedStore st instanceId);
                   isOverrideState := bool_decide (overrideState st ≠ None) |}]).
Proof.
  unfold stopLoading, stoppedStore, derive, result, isLoading, emitChange.
  unfold mbind, M_bind, mret, M_ret, get, set, emit. simpl.
  destruct st as [n o m]; simpl.
  destruct (supplied instanceId) as [id|]; simpl;
    [destruct (0 <? counterOr0 m id); simpl|];
    destruct o as [[]|]; simpl;
    repeat (destruct (0 <? _); simpl); reflexivity.
Qed.

Lemma overrideLoading_run st state :
  overrideLoading state st =
    (tt, overriddenStore st state,
     (if derive (overriddenStore st state) && negb (derive st) then [start]
      else if negb (derive (overriddenStore st state)) && derive st then [stop]
      else [])
     ++ [change {| payload_isLoading := derive (overriddenStore st state);
                   isOverrideState := bool_decide (state ≠ None) |}]).
Proof.
  unfold overrideLoading, overriddenStore, derive, result, isLoading, emitChange.
  unfold mbind, M_bind, mret, M_ret, get, set, emit. simpl.
  destruct state as [[]|]; simpl;
    destruct (overrideState st) as [[]|]; simpl;
    repeat (destruct (0 <? _); simpl); reflexivity.
Qed.

Lemma stopLoading_unkeyed_run st :
  stopLoading None st =
    (tt, st, [change {| payload_isLoading := derive st;
                        isOverrideState := bool_decide (overrideState st ≠ None) |}]).
Proof.
  rewrite stopLoading_run. unfold stoppedStore. simpl.
  by destruct (derive st).
Qed.

Lemma stoppedStore_gate st instanceId :
  stoppedStore st instanceId =
    if stopGate st instanceId then
      {| loadingCount := Z.max 0 (loadingCount st - 1);
         overrideState := overrideState st;
         localCounters :=
           match supplied instanceId with
           | Some id =>
               <[id := Z.max 0 (counterOr0 (localCounters st) id - 1)]> (localCounters st)
           | None => localCounters st
           end |}
    else st.
Proof.
  unfold stoppedStore, stopGate. destruct (supplied instanceId); [|done].
  by destruct (0 <? _).
Qed.

Lemma stopGate_true st instanceId :
  stopGate st instanceId = true ↔
  ∃ id, supplied instanceId = Some id ∧ 0 < result (getLocalCounter id) st.
Proof.
  unfold stopGate. setoid_rewrite getLocalCounter_result.
  destruct (supplied instanceId) as [id|]; split.
  - intros H%Z.ltb_lt. eauto.
  - intros (id' & [= <-] & H). by apply Z.ltb_lt.
  - discriminate.
  - intros (id' & [=] & _).
Qed.

(** The entry the guarded branch of [stopLoading] reads is present. *)
Lemma stopLoading_entry_present st instanceId id :
  supplied instanceId = Some id →
  stopGate st instanceId = true →
  ∃ n, localCounters st !! id = Some n ∧ 0 < n.
Proof.
  unfold stopGate, counterOr0. intros ->.
  destruct (localCounters st !! id) as [n|]; simpl; [|discriminate].
  intros Hn. exists n. split; [done|lia].
Qed.

Lemma state_after_perform st c : state_after (perform c) st = next st c.
Proof.
  destruct c; unfold state_after; simpl;
    [rewrite startLoading_run|rewrite stopLoading_run|rewrite overrideLoading_run];
    reflexivity.
Qed.

Lemma performAll_total calls st :
  performAll calls st =
    (tt, state_after (performAll calls) st, emitted (performAll calls) st).
Proof.
  unfold state_after, emitted. by destruct (performAll calls st) as [[[] st'] events].
Qed.

Lemma performAll_app calls1 calls2 st :
  state_after (performAll (calls1 ++ calls2)) st =
    state_after (performAll calls2) (state_after (performAll calls1) st).
Proof.
  revert st. induction calls1 as [|c calls1 IH]; intros st; [done|].
  simpl. unfold state_after in *. simpl. unfold mbind, M_bind.
  destruct (perform c st) as [[[] st1] ev1]. specialize (IH st1).
  destruct (performAll (calls1 ++ calls2) st1) as [[[] st2] ev2].
  destruct (performAll calls1 st1) as [[[] st3] ev3]. simpl in *.
  destruct (performAll calls2 st3) as [[[] st4] ev4]. simpl in *. done.
Qed.

Lemma performAll_cons c calls st :
  state_after (performAll (c :: calls)) st =
    state_after (performAll calls) (next st c).
Proof.
  rewrite <- state_after_perform. unfold state_after. simpl. unfold mbind, M_bind.
  destruct (perform c st) as [[[] st1] ev1]. simpl.
  by destruct (performAll calls st1) as [[[] st2] ev2].
Qed.

Lemma reachable_next st c : reachable st → reachable (next st c).
Proof. rewrite <- state_after_perform. apply reachable_perform. Qed.

Lemma reachable_performAll calls st :
  reachable st → reachable (state_after (performAll calls) st).
Proof.
  revert st. induction calls as [|c calls IH]; intros st Hst; [done|].
  rewrite performAll_cons. by apply IH, reachable_next.
Qed.

Lemma reachable_sequence st :
  reachable st ↔ ∃ calls, st = state_after (performAll calls) initialStore.
Proof.
  split.
  - induction 1 as [|st c _ [calls ->]].
    + by exists [].
    + exists (calls ++ [c]). rewrite performAll_app, performAll_cons.
      by rewrite state_after_perform.
  - intros [calls ->]. apply reachable_performAll, reachable_initial.
Qed.

Lemma sampleStore_reachable : reachable sampleStore.
Proof. apply reachable_performAll, reachable_initial. Qed.

Lemma state_after_localStartLoading id st :
  state_after (localStartLoading id) st = startedStore st (Some id).
Proof. unfold localStartLoading, state_after. by rewrite startLoading_run. Qed.

(** The wrapper's own test [isLocalLoading(instanceId)] and the guard of
    [stopLoading] agree, so on the state the wrapper acts like the
    action. *)
Lemma state_after_localStopLoading id st :
  state_after (localStopLoading id) st = stoppedStore st (Some id).
Proof.
  unfold localStopLoading. rewrite state_after_bind.
  change (result (isLocalLoading id) st) with (0 <? counterOr0 (localCounters st) id).
  change (state_after (isLocalLoading id) st) with st.
  destruct (0 <? counterOr0 (localCounters st) id) eqn:Hpos.
  - unfold state_after. by rewrite stopLoading_run.
  - unfold stoppedStore. destruct (supplied (Some id)) as [id'|] eqn:Hkey; [|done].
    apply supplied_Some in Hkey as [[= <-] _]. by rewrite Hpos.
Qed.

Lemma started_counts st id :
  id ≠ EmptyString →
  loadingCount (startedStore st (Some id)) = loadingCount st + 1
  ∧ overrideState (startedStore st (Some id)) = overrideState st
  ∧ counterOr0 (localCounters (startedStore st (Some id))) id
      = counterOr0 (localCounters st) id + 1.
Proof.
  intros Hid. unfold startedStore. rewrite supplied_nonempty by done. simpl.
  repeat split. unfold counterOr0 at 1. by rewrite lookup_insert_eq.
Qed.

Lemma stopped_counts st id :
  id ≠ EmptyString →
  0 < counterOr0 (localCounters st) id →
  loadingCount (stoppedStore st (Some id)) = Z.max 0 (loadingCount st - 1)
  ∧ overrideState (stoppedStore st (Some id)) = overrideState st
  ∧ counterOr0 (localCounters (stoppedStore st (Some id))) id
      = counterOr0 (localCounters st) id - 1.
Proof.
  intros Hid Hpos. unfold stoppedStore. rewrite supplied_nonempty by done.
  apply Z.ltb_lt in Hpos as Hpos'. rewrite Hpos'. simpl.
  repeat split. unfold counterOr0 at 1. rewrite lookup_insert_eq. simpl. lia.
Qed.

End Actions.

(** ** The sum of the local counters *)

Section SumCounters.
Implicit Types (m : gmap string Z) (id : string).

Lemma sumCounters_empty : sumCounters ∅ = 0.
Proof. apply map_fold_empty. Qed.

Lemma sumCounters_fresh m id v :
  m !! id = None → sumCounters (<[id:=v]> m) = v + sumCounters m.
Proof.
  intros Hid. unfold sumCounters.
  rewrite map_fold_insert_L; [done| |done]. intros; lia.
Qed.

Lemma sumCounters_delete m id n :
  m !! id = Some n → sumCounters m = n + sumCounters (delete id m).
Proof.
  intros Hid. unfold sumCounters.
  rewrite (map_fold_delete_L _ _ id n m); [done| |done]. intros; lia.
Qed.

Lemma sumCounters_insert m id v :
  sumCounters (<[id:=v]> m) = sumCounters m - counterOr0 m id + v.
Proof.
  unfold counterOr0. destruct (m !! id) as [n|] eqn:Hid; simpl.
  - rewrite <- insert_delete_eq.
    rewrite sumCounters_fresh by apply lookup_delete_eq.
    rewrite (sumCounters_delete m id n Hid). lia.
  - rewrite sumCounters_fresh by done. lia.
Qed.

Lemma sumCounters_nonneg m : nonnegCounters m → 0 ≤ sumCounters m.
Proof.
  unfold sumCounters, nonnegCounters.
  apply (map_fold_weak_ind (λ total m, (∀ id n, m !! id = Some n → 0 ≤ n) → 0 ≤ total)).
  - lia.
  - intros id n m' total Hfresh IH Hall.
    assert (0 ≤ n) by (apply (Hall id); apply lookup_insert_eq).
    assert (0 ≤ total); [|lia].
    apply IH. intros id' n' Hid'. apply (Hall id').
    rewrite lookup_insert_ne; [done|]. intros ->. congruence.
Qed.

Lemma nonnegCounters_delete m id : nonnegCounters m → nonnegCounters (delete id m).
Proof.
  intros Hall id' n. rewrite lookup_delete. case_decide; [done|]. apply Hall.
Qed.

Lemma counterOr0_nonneg m id : nonnegCounters m → 0 ≤ counterOr0 m id.
Proof.
  intros Hall. unfold counterOr0.
  destruct (m !! id) as [n|] eqn:Hid; simpl; [by eapply Hall|lia].
Qed.

(** Each local counter is at most the sum of all of them. *)
Lemma counterOr0_le_sum m id : nonnegCounters m → counterOr0 m id ≤ sumCounters m.
Proof.
  intros Hall. unfold counterOr0.
  destruct (m !! id) as [n|] eqn:Hid; simpl.
  - rewrite (sumCounters_delete m id n Hid).
    pose proof (sumCounters_nonneg _ (nonnegCounters_delete m id Hall)). lia.
  - by apply sumCounters_nonneg.
Qed.

Lemma nonnegCounters_insert m id v :
  0 ≤ v → nonnegCounters m → nonnegCounters (<[id:=v]> m).
Proof.
  intros Hv Hall id' n. rewrite lookup_insert. case_decide.
  - intros [= <-]. done.
  - apply Hall.
Qed.

End SumCounters.

(** ** The balance invariant holds in every state of the store *)

Section Balance.
Implicit Types (st : Store) (instanceId : option string) (id : string).

Lemma balanced_initial : balanced initialStore 0.
Proof.
  split; simpl.
  - rewrite sumCounters_empty. lia.
  - lia.
  - intros id n. by rewrite lookup_empty.
  - apply lookup_empty.
Qed.

Lemma balanced_next st u c :
  balanced st u →
  balanced (next st c) (u + if isUnkeyedStart c then 1 else 0).
Proof.
  intros [Hcount Hu Hnonneg Hempty].
  destruct c as [instanceId|instanceId|state]; simpl.
  - (* startLoading *)
    unfold startedStore.
    destruct (supplied instanceId) as [id|] eqn:Hkey.
    + apply supplied_Some in Hkey as [_ Hid].
      pose proof (counterOr0_nonneg _ id Hnonneg).
      rewrite bool_decide_eq_false_2 by done.
      split; simpl.
      * rewrite sumCounters_insert. lia.
      * lia.
      * apply nonnegCounters_insert; [lia|done].
      * by rewrite lookup_insert_ne.
    + rewrite bool_decide_eq_true_2 by done. split; simpl; [lia|lia|done|done].
  - (* stopLoading *)
    replace (u + 0) with u by lia. unfold stoppedStore.
    destruct (supplied instanceId) as [id|] eqn:Hkey; [|by split].
    apply supplied_Some in Hkey as [_ Hid].
    destruct (0 <? counterOr0 (localCounters st) id) eqn:Hpos; [|by split].
    apply Z.ltb_lt in Hpos.
    pose proof (counterOr0_le_sum _ id Hnonneg).
    split; simpl.
    + rewrite sumCounters_insert. lia.
    + done.
    + apply nonnegCounters_insert; [lia|done].
    + by rewrite lookup_insert_ne.
  - (* overrideLoading *)
    replace (u + 0) with u by lia. by split.
Qed.

Lemma unkeyedStarts_cons c calls :
  unkeyedStarts (c :: calls) =
    (if isUnkeyedStart c then 1 else 0) + unkeyedStarts calls.
Proof.
  unfold unkeyedStarts. rewrite filter_cons.
  destruct (isUnkeyedStart c); case_decide; try done; simpl length; lia.
Qed.

Lemma balanced_performAll calls st u :
  balanced st u →
  balanced (state_after (performAll calls) st) (u + unkeyedStarts calls).
Proof.
  revert st u. induction calls as [|c calls IH]; intros st u Hst.
  - replace (u + unkeyedStarts []) with u by (unfold unkeyedStarts; simpl; lia).
    done.
  - rewrite performAll_cons, unkeyedStarts_cons, Z.add_assoc.
    by apply IH, balanced_next.
Qed.

Lemma reachable_balanced st : reachable st → ∃ u, balanced st u.
Proof.
  induction 1 as [|st c _ [u Hu]].
  - exists 0. apply balanced_initial.
  - rewrite state_after_perform. eexists. by apply balanced_next.
Qed.

(** In a balanced state the global counter bounds every local counter. *)
Lemma balanced_dominates st u id :
  balanced st u → counterOr0 (localCounters st) id ≤ loadingCount st.
Proof.
  intros [Hcount Hu Hnonneg _].
  pose proof (counterOr0_le_sum _ id Hnonneg). lia.
Qed.

(** On a state of the store a key with a positive local counter is never
    the empty string, so the code's test [if (instanceId)] and "a key was
    passed" select the same calls. *)
Lemma reachable_gate st instanceId :
  reachable st →
  (∃ id, instanceId = Some id ∧ 0 < result (getLocalCounter id) st) ↔
  stopGate st instanceId = true.
Proof.
  intros [u Hst]%reachable_balanced. rewrite stopGate_true. split.
  - intros (id & -> & Hpos). exists id. split; [|done].
    destruct id as [|a s]; [|done].
    rewrite getLocalCounter_result in Hpos. unfold counterOr0 in Hpos.
    rewrite (balanced_empty_key _ _ Hst) in Hpos. simpl in Hpos. lia.
  - intros (id & [-> _]%supplied_Some & Hpos). eauto.
Qed.

End Balance.

(** ** Callers that do not take part *)

Section Bystanders.
Implicit Types (st : Store) (id : string) (calls : list Call).

(** A stop by a caller whose local counter is 0 changes nothing. *)
Lemma orphan_stop_unchanged st id :
  counterOr0 (localCounters st) id = 0 → next st (CallStop (Some id)) = st.
Proof.
  intros Hzero. simpl. rewrite stoppedStore_gate.
  destruct (stopGate st (Some id)) eqn:Hgate; [|done].
  apply stopGate_true in Hgate as (id' & [[= ->] _]%supplied_Some & Hpos).
  rewrite getLocalCounter_result in Hpos. lia.
Qed.

(** Only [startLoading(id)] takes the local counter of [id] off 0. *)
Lemma never_started_zero st c id :
  c ≠ CallStart (Some id) →
  counterOr0 (localCounters st) id = 0 →
  counterOr0 (localCounters (next st c)) id = 0.
Proof.
  intros Hc Hzero. destruct c as [instanceId|instanceId|state]; simpl; [| |done].
  - unfold startedStore. simpl.
    destruct (supplied instanceId) as [id'|] eqn:Hkey; [|done].
    apply supplied_Some in Hkey as [-> _].
    unfold counterOr0 in *. rewrite lookup_insert_ne; [done|]. congruence.
  - rewrite stoppedStore_gate.
    destruct (stopGate st instanceId) eqn:Hgate; [|done]. simpl.
    apply stopGate_true in Hgate as (id' & Hkey & Hpos). rewrite Hkey.
    rewrite getLocalCounter_result in Hpos.
    unfold counterOr0 in *. rewrite lookup_insert_ne; [done|]. intros ->. lia.
Qed.

Lemma orphan_stops_erased calls st id :
  CallStart (Some id) ∉ calls →
  counterOr0 (localCounters st) id = 0 →
  state_after (performAll calls) st =
    state_after (performAll (filter (λ c, c ≠ CallStop (Some id)) calls)) st.
Proof.
  revert st. induction calls as [|c calls IH]; intros st Hnever Hzero; [done|].
  apply not_elem_of_cons in Hnever as [Hc Hnever].
  rewrite filter_cons. case_decide as Hstop.
  - rewrite !performAll_cons. apply IH; [done|]. by apply never_started_zero.
  - subst c.
    rewrite performAll_cons, orphan_stop_unchanged by done. by apply IH.
Qed.

Lemma other_key_untouched st c id :
  callKey c ≠ Some id →
  counterOr0 (localCounters (next st c)) id = counterOr0 (localCounters st) id.
Proof.
  intros Hother. destruct c as [instanceId|instanceId|state]; simpl in *; [| |done].
  - unfold startedStore. simpl. destruct (supplied instanceId) as [id'|]; [|done].
    unfold counterOr0. rewrite lookup_insert_ne; [done|]. congruence.
  - rewrite stoppedStore_gate. destruct (stopGate st instanceId); [|done]. simpl.
    destruct (supplied instanceId) as [id'|]; [|done].
    unfold counterOr0. rewrite lookup_insert_ne; [done|]. congruence.
Qed.

Lemma other_keys_untouched others st id :
  Forall (λ c, callKey c ≠ Some id) others →
  counterOr0 (localCounters (state_after (performAll others) st)) id
    = counterOr0 (localCounters st) id.
Proof.
  intros Hothers. revert st.
  induction Hothers as [|c others Hc _ IH]; intros st; [done|].
  rewrite performAll_cons, IH. by apply other_key_untouched.
Qed.

(** When the caller's local counter is positive the wrapper's test
    passes and [localStopLoading] is the call [stopLoading(instanceId)],
    events included. *)
Lemma localStopLoading_active id st :
  0 < counterOr0 (localCounters st) id →
  localStopLoading id st = stopLoading (Some id) st.
Proof.
  intros Hpos%Z.ltb_lt. unfold localStopLoading, isLocalLoading.
  unfold mbind at 1 2, M_bind, get, mret, M_ret. simpl. rewrite Hpos.
  by destruct (stopLoading (Some id) st) as [[[] st'] events].
Qed.

(** The two exits of [try ... finally] run the same steps. *)
Lemma asyncUseLoading_run {R E} id (asyncFunction : Settled R E) (meanwhile : M unit) st :
  asyncUseLoading id asyncFunction meanwhile st =
    (localStartLoading id;; meanwhile;;
     localStopLoading id;; mret asyncFunction) st.
Proof. unfold asyncUseLoading. by destruct asyncFunction. Qed.

End Bystanders.

(** ** The derived boolean and the events *)

Section Derived.
Implicit Types (st : Store) (instanceId : option string).

Lemma derive_startedStore st instanceId :
  derive st = true → derive (startedStore st instanceId) = true.
Proof.
  rewrite !derive_eq. simpl. destruct (overrideState st); [done|].
  rewrite !Z.ltb_lt. lia.
Qed.

Lemma derive_stoppedStore st instanceId :
  derive (stoppedStore st instanceId) = true → derive st = true.
Proof.
  rewrite stoppedStore_gate. destruct (stopGate st instanceId); [|done].
  rewrite !derive_eq. simpl. destruct (overrideState st); [done|].
  rewrite !Z.ltb_lt. lia.
Qed.

(** The events of one call, in the order of emission. *)
Lemma emitted_perform st c :
  emitted (perform c) st =
    (if derive (next st c) && negb (derive st) then [start] else [])
    ++ (if negb (derive (next st c)) && derive st then [stop] else [])
    ++ [change {| payload_isLoading := derive (next st c);
                  isOverrideState := bool_decide (overrideState (next st c) ≠ None) |}].
Proof.
  destruct c as [instanceId|instanceId|state]; unfold emitted; simpl.
  - rewrite startLoading_run. simpl.
    pose proof (derive_startedStore st instanceId) as Hstays.
    destruct (derive st), (derive (startedStore st instanceId)); simpl; try done.
    by discriminate Hstays.
  - rewrite stopLoading_run. simpl.
    pose proof (derive_stoppedStore st instanceId) as Hwas.
    assert (overrideState (stoppedStore st instanceId) = overrideState st) as ->.
    { rewrite stoppedStore_gate. by destruct (stopGate _ _). }
    destruct (derive st), (derive (stoppedStore st instanceId)); simpl; try done.
    by discriminate Hwas.
  - rewrite overrideLoading_run. simpl.
    by destruct (derive st), (derive (overriddenStore st state)).
Qed.

End Derived.

(** Membership of an event in a short, explicit list of events. *)
Ltac in_events :=
  repeat match goal with
  | H : _ ∈ [] |- _ => by apply elem_of_nil in H
  | H : _ ∈ _ :: _ |- _ => apply elem_of_cons in H as [H|H]
  | H : start = change _ |- _ => discriminate H
  | H : stop = change _ |- _ => discriminate H
  | H : start = stop |- _ => discriminate H
  | H : stop = start |- _ => discriminate H
  | |- ?e ∈ ?e :: _ => apply list_elem_of_here
  end.

(** ** The two-caller scenario, run on the embedding

    [A] and [B] start once each, then [A] stops, then [B] stops: the
    global counter goes 1, 2, 1, 0 and the only [stop] event is emitted by
    the last call. *)

Example two_callers_counts :
  map (λ k, loadingCount (state_after (performAll (take k
         [CallStart (Some "A"%string); CallStart (Some "B"%string);
          CallStop (Some "A"%string); CallStop (Some "B"%string)])) initialStore))
      [1; 2; 3; 4]%nat
  = [1; 2; 1; 0].
Proof. reflexivity. Qed.

Example two_callers_events :
  emitted (performAll
    [CallStart (Some "A"%string); CallStart (Some "B"%string);
     CallStop (Some "A"%string); CallStop (Some "B"%string)]) initialStore
  = [start;
     change {| payload_isLoading := true; isOverrideState := false |};
     change {| payload_isLoading := true; isOverrideState := false |};
     change {| payload_isLoading := true; isOverrideState := false |};
     stop;
     change {| payload_isLoading := false; isOverrideState := false |}].
Proof. vm_compute. reflexivity. Qed.

(** * The claims *)

(** C1.  The pairing rule of [stopLoading], for every state [st] and
    every optional key.  Let [st'] be the state after the call.
    - If the guard [instanceId && localCounter > 0] holds, the global
      counter becomes [max 0 (loadingCount - 1)], the caller's local
      counter goes down by exactly one and no other local counter
      changes.
    - If it does not hold (no key, or the key's local counter is not
      positive), the global counter and all local counters are as
      before.
    - Hence the caller's map of local counters changes exactly when the
      guard holds.
    - On a state of the store (one reachable from the initial state) the
      floor is not hit: the global counter goes down by exactly one if
      and only if a key was passed whose local counter is positive. *)
Theorem stopLoading_pairing_rule (st : Store) (instanceId : option string) :
  let st' := state_after (stopLoading instanceId) st in
  (∀ id, supplied instanceId = Some id →
         0 < result (getLocalCounter id) st →
         loadingCount st' = Z.max 0 (loadingCount st - 1) ∧
         result (getLocalCounter id) st' = result (getLocalCounter id) st - 1 ∧
         ∀ id', id' ≠ id → localCounters st' !! id' = localCounters st !! id')
  ∧ (supplied instanceId = None ∨
     (∃ id, supplied instanceId = Some id ∧ result (getLocalCounter id) st ≤ 0) →
     loadingCount st' = loadingCount st ∧ localCounters st' = localCounters st)
  ∧ (localCounters st' ≠ localCounters st ↔
     ∃ id, supplied instanceId = Some id ∧ 0 < result (getLocalCounter id) st)
  ∧ (reachable st →
     (loadingCount st' = loadingCount st - 1 ↔
      ∃ id, instanceId = Some id ∧ 0 < result (getLocalCounter id) st)).
Proof.
  intros st'. subst st'. change (state_after (stopLoading instanceId) st)
    with (state_after (perform (CallStop instanceId)) st).
  rewrite state_after_perform. simpl next.
  assert (Hchanged : ∀ id, supplied instanceId = Some id →
            0 < counterOr0 (localCounters st) id →
            stoppedStore st instanceId =
              {| loadingCount := Z.max 0 (loadingCount st - 1);
                 overrideState := overrideState st;
                 localCounters :=
                   <[id := Z.max 0 (counterOr0 (localCounters st) id - 1)]>
                     (localCounters st) |}).
  { intros id Hkey Hpos. unfold stoppedStore. rewrite Hkey.
    by apply Z.ltb_lt in Hpos as ->. }
  assert (Hsame : stopGate st instanceId = false → stoppedStore st instanceId = st).
  { intros Hgate. by rewrite stoppedStore_gate, Hgate. }
  split; [|split; [|split]].
  - intros id Hkey Hpos. rewrite getLocalCounter_result in Hpos.
    rewrite (Hchanged id Hkey Hpos), !getLocalCounter_result. simpl.
    split; [done|]. split.
    + unfold counterOr0 at 1. rewrite lookup_insert_eq. simpl. lia.
    + intros id' Hne. by rewrite lookup_insert_ne.
  - intros Hnot. rewrite Hsame; [done|].
    apply not_true_is_false. rewrite stopGate_true. intros (id & Hkey & Hpos).
    destruct Hnot as [Hnone|(id' & Hkey' & Hle)]; [congruence|].
    rewrite Hkey' in Hkey. injection Hkey as ->. lia.
  - rewrite <- stopGate_true. split.
    + intros Hdiff. destruct (stopGate st instanceId) eqn:Hgate; [done|].
      by rewrite Hsame in Hdiff.
    + intros (id & Hkey & Hpos)%stopGate_true Heq.
      rewrite getLocalCounter_result in Hpos.
      rewrite (Hchanged id Hkey Hpos) in Heq. simpl in Heq.
      assert (Hread : counterOr0 (<[id := Z.max 0 (counterOr0 (localCounters st) id - 1)]>
                                    (localCounters st)) id
                      = counterOr0 (localCounters st) id) by (by rewrite Heq).
      unfold counterOr0 at 1 in Hread. rewrite lookup_insert_eq in Hread.
      simpl in Hread. lia.
  - intros Hreach. rewrite (reachable_gate st instanceId Hreach). split.
    + intros Hdec. destruct (stopGate st instanceId) eqn:Hgate; [done|].
      rewrite Hsame in Hdec by done. lia.
    + intros (id & Hkey & Hpos)%stopGate_true.
      rewrite getLocalCounter_result in Hpos.
      rewrite (Hchanged id Hkey Hpos). simpl.
      destruct (reachable_balanced st Hreach) as [u Hst].
      pose proof (balanced_dominates st u id Hst). lia.
Qed.

Lemma stopLoading_pairing_rule_witness :
  (supplied (Some "a"%string) = Some "a"%string ∧
   0 < result (getLocalCounter "a") sampleStore ∧
   loadingCount (state_after (stopLoading (Some "a"%string)) sampleStore) = 1 ∧
   result (getLocalCounter "a") (state_after (stopLoading (Some "a"%string)) sampleStore) = 0)
  ∧ (supplied None = None ∧
     loadingCount (state_after (stopLoading None) sampleStore) = 2)
  ∧ (reachable sampleStore ∧
     loadingCount (state_after (stopLoading (Some "a"%string)) sampleStore)
       = loadingCount sampleStore - 1).
Proof.
  destruct (stopLoading_pairing_rule sampleStore (Some "a"%string))
    as (Hdec & _ & _ & Hreach).
  destruct (stopLoading_pairing_rule sampleStore None) as (_ & Hsame & _ & _).
  assert (Hkey : supplied (Some "a"%string) = Some "a"%string) by reflexivity.
  assert (Hpos : 0 < result (getLocalCounter "a") sampleStore) by (vm_compute; reflexivity).
  destruct (Hdec "a"%string Hkey Hpos) as (Hglobal & Hlocal & _).
  destruct (Hsame (or_introl eq_refl)) as (Hglobal' & _).
  split; [|split].
  - split; [exact Hkey|]. split; [exact Hpos|]. split.
    + rewrite Hglobal. vm_compute. reflexivity.
    + rewrite Hlocal. vm_compute. reflexivity.
  - split; [reflexivity|]. rewrite Hglobal'. vm_compute. reflexivity.
  - split; [apply sampleStore_reachable|].
    apply Hreach; [apply sampleStore_reachable|].
    exists "a"%string. split; [reflexivity|exact Hpos].
Defined.

(** C2.  [isGlobalLoading()] is a pure read that returns the override
    when one is set and [loadingCount > 0] otherwise.  So right after
    [overrideLoading(true)] it returns true and after
    [overrideLoading(false)] false, whatever the counter is, and after
    [overrideLoading(null)] it returns [loadingCount > 0] for the counter
    as it then stands, which no override call changes. *)
Theorem isGlobalLoading_override_precedence (st : Store) :
  result isGlobalLoading st =
    match overrideState st with
    | Some b => b
    | None => 0 <? loadingCount st
    end
  ∧ state_after isGlobalLoading st = st
  ∧ emitted isGlobalLoading st = []
  ∧ (∀ b : bool,
       result isGlobalLoading (state_after (overrideLoading (Some b)) st) = b)
  ∧ result isGlobalLoading (state_after (overrideLoading None) st)
      = (0 <? loadingCount st)
  ∧ (∀ state,
       loadingCount (state_after (overrideLoading state) st) = loadingCount st ∧
       overrideState (state_after (overrideLoading state) st) = state).
Proof.
  repeat split; try reflexivity; intros; unfold state_after;
    rewrite overrideLoading_run; reflexivity.
Qed.

(** C3.  One call of [startLoading], [stopLoading] or [overrideLoading]
    emits exactly one [change] event, emits [start] if and only if the
    derived boolean went from false to true, emits [stop] if and only if
    it went from true to false, and the [change] event is the last event
    of the call: whatever else the call emits is a [start] or a [stop]
    and comes before it.  The payload of [change] carries the new derived
    boolean and whether an override is set. *)
Theorem events_of_one_call (st : Store) (c : Call) :
  let st' := state_after (perform c) st in
  let events := emitted (perform c) st in
  length (filter (λ e, isChange e = true) events) = 1%nat
  ∧ (start ∈ events ↔ derive st = false ∧ derive st' = true)
  ∧ (stop ∈ events ↔ derive st = true ∧ derive st' = false)
  ∧ ∃ before,
      events = before ++
        [change {| payload_isLoading := derive st';
                   isOverrideState := bool_decide (overrideState st' ≠ None) |}]
      ∧ (length before ≤ 1)%nat
      ∧ ∀ e, e ∈ before → e = start ∨ e = stop.
Proof.
  intros st' events. subst st' events.
  rewrite state_after_perform, emitted_perform.
  destruct (derive st), (derive (next st c)); simpl;
    (split; [reflexivity|]);
    (split; [split; [intros Hin; in_events; auto | intros []; try discriminate; in_events]|]);
    (split; [split; [intros Hin; in_events; auto | intros []; try discriminate; in_events]|]);
    [exists nil | exists (cons stop nil) | exists (cons start nil) | exists nil];
    (split; [reflexivity|]); (split; [simpl; lia|]);
    intros e Hin; in_events; auto.
Qed.

(** C5.  In a state of the store with no override in which some caller
    [B] has a positive local counter, [isGlobalLoading()] returns true.
    And stops by a caller [A] that never started are without effect:
    a run in which [startLoading(A)] does not occur ends in the same
    state (global counter, local counters, override, hence the same
    derived boolean) as the run with every [stopLoading(A)] left out,
    wherever those stops stood among the other calls; and in any state
    where the local counter of [A] is 0, any number of [stopLoading(A)]
    calls in a row leave the state as it is. *)
Theorem orphan_stop_does_not_mask :
  (∀ st B,
     reachable st → overrideState st = None →
     0 < result (getLocalCounter B) st →
     result isGlobalLoading st = true)
  ∧ (∀ calls A,
       CallStart (Some A) ∉ calls →
       state_after (performAll calls) initialStore =
         state_after (performAll (filter (λ c, c ≠ CallStop (Some A)) calls))
           initialStore)
  ∧ (∀ st A (n : nat),
       result (getLocalCounter A) st = 0 →
       state_after (performAll (replicate n (CallStop (Some A)))) st = st).
Proof.
  split; [|split].
  - intros st B [u Hst]%reachable_balanced Hnone Hpos.
    pose proof (balanced_dominates st u B Hst).
    rewrite getLocalCounter_result in Hpos.
    change (derive st = true). rewrite derive_eq, Hnone. apply Z.ltb_lt. lia.
  - intros calls A Hnever. by apply orphan_stops_erased.
  - intros st A n Hzero. rewrite getLocalCounter_result in Hzero.
    induction n as [|n IH]; [done|].
    simpl replicate. by rewrite performAll_cons, orphan_stop_unchanged.
Qed.

Lemma orphan_stop_does_not_mask_witness :
  result isGlobalLoading (state_after (performAll orphanStops) initialStore) = true
  ∧ state_after (performAll orphanStops) initialStore =
      state_after (performAll [CallStart (Some "b"%string)]) initialStore
  ∧ state_after (performAll (replicate 3 (CallStop (Some "a"%string))))
      (state_after (performAll [CallStart (Some "b"%string)]) initialStore)
    = state_after (performAll [CallStart (Some "b"%string)]) initialStore.
Proof.
  destruct orphan_stop_does_not_mask as (Hloading & Herased & Hrepeat).
  split; [|split].
  - apply (Hloading _ "b"%string).
    + apply reachable_performAll, reachable_initial.
    + reflexivity.
    + vm_compute. reflexivity.
  - apply (Herased orphanStops "a"%string).
    unfold orphanStops. rewrite !not_elem_of_cons. repeat split; try discriminate.
    apply not_elem_of_nil.
  - apply Hrepeat. vm_compute. reflexivity.
Defined.

(** C6, as the code has it.  A [stopLoading()] without a key does not
    get past the guard [instanceId && localCounter > 0]: in every state
    it leaves the global counter, the override and every local counter
    as they are, and emits one [change] event carrying the unchanged
    derived boolean. *)
Theorem unkeyed_stop_changes_nothing (st : Store) :
  state_after (stopLoading None) st = st
  ∧ loadingCount (state_after (stopLoading None) st) = loadingCount st
  ∧ emitted (stopLoading None) st =
      [change {| payload_isLoading := derive st;
                 isOverrideState := bool_decide (overrideState st ≠ None) |}].
Proof.
  unfold state_after, emitted. rewrite stopLoading_unkeyed_run. done.
Qed.

(** C6, as stated, fails: there is no state in which a [stopLoading()]
    without a key lowers the global counter. *)
Lemma unkeyed_stop_never_decrements :
  ¬ ∃ st, loadingCount (state_after (stopLoading None) st) < loadingCount st.
Proof.
  intros [st Hlt]. unfold state_after in Hlt.
  rewrite stopLoading_unkeyed_run in Hlt. simpl in Hlt. lia.
Qed.

(** C7, as the code has it.  Through one hook instance, whose wrappers
    pass the instance's non-empty key, two starts need two stops: from
    the initial state [isGlobalLoading()] is true after
    [startLoading(); startLoading()], still true after one
    [stopLoading()], and false after the second.  Called on the store
    without a key, the two stops change nothing and [isGlobalLoading()]
    is true after each of them. *)
Theorem two_starts_need_two_stops (id : string) :
  id ≠ EmptyString →
  let started := state_after (localStartLoading id;; localStartLoading id) initialStore in
  let stoppedOnce := state_after (localStopLoading id) started in
  let stoppedTwice := state_after (localStopLoading id) stoppedOnce in
  let unkeyed := state_after (startLoading None;; startLoading None) initialStore in
  (result isGlobalLoading started = true
   ∧ result isGlobalLoading stoppedOnce = true
   ∧ result isGlobalLoading stoppedTwice = false)
  ∧ (result isGlobalLoading unkeyed = true
     ∧ result isGlobalLoading (state_after (stopLoading None) unkeyed) = true
     ∧ result isGlobalLoading
         (state_after (stopLoading None;; stopLoading None) unkeyed) = true).
Proof.
  intros Hid started stoppedOnce stoppedTwice unkeyed. split.
  - subst stoppedTwice stoppedOnce started.
    rewrite state_after_bind, !state_after_localStartLoading,
      !state_after_localStopLoading.
    set (s1 := startedStore initialStore (Some id)).
    set (s2 := startedStore s1 (Some id)).
    destruct (started_counts initialStore id Hid) as (Hc1 & Ho1 & Hl1). fold s1 in Hc1, Ho1, Hl1.
    destruct (started_counts s1 id Hid) as (Hc2 & Ho2 & Hl2). fold s2 in Hc2, Ho2, Hl2.
    assert (Hl0 : counterOr0 (localCounters initialStore) id = 0) by done.
    assert (Hc0 : loadingCount initialStore = 0) by done.
    assert (Ho0 : overrideState initialStore = None) by done.
    destruct (stopped_counts s2 id Hid) as (Hc3 & Ho3 & Hl3); [lia|].
    set (s3 := stoppedStore s2 (Some id)) in *.
    destruct (stopped_counts s3 id Hid) as (Hc4 & Ho4 & Hl4); [lia|].
    set (s4 := stoppedStore s3 (Some id)) in *.
    change (derive s2 = true ∧ derive s3 = true ∧ derive s4 = false).
    rewrite !derive_eq, Ho4, Ho3, Ho2, Ho1, Ho0.
    rewrite !Z.ltb_lt, Z.ltb_ge. lia.
  - subst unkeyed. repeat split; reflexivity.
Qed.

Lemma two_starts_need_two_stops_witness :
  ("r0"%string ≠ EmptyString)
  ∧ result isGlobalLoading
      (state_after (localStopLoading "r0";; localStopLoading "r0")
         (state_after (localStartLoading "r0";; localStartLoading "r0") initialStore))
    = false.
Proof.
  assert (Hid : "r0"%string ≠ EmptyString) by discriminate.
  split; [exact Hid|].
  destruct (two_starts_need_two_stops "r0"%string Hid) as ((_ & _ & Hfalse) & _).
  rewrite state_after_bind. exact Hfalse.
Defined.

(** C7, as stated, fails: after two starts and two stops without a key
    the global counter is still 2 and [isGlobalLoading()] returns true. *)
Lemma unkeyed_stops_leave_loading :
  loadingCount (state_after (performAll unkeyedRun) initialStore) = 2
  ∧ result isGlobalLoading (state_after (performAll unkeyedRun) initialStore) = true.
Proof. split; reflexivity. Qed.

Section AsyncWrapper.
Context {R E : Type}.
Implicit Types (st : Store) (id : string) (asyncFunction : Settled R E).

(** C8.  [asyncUseLoading], for every way the promise settles.
    - Whatever runs against the store while the promise is pending, the
      wrapper is the run [localStartLoading()], then that, then
      [localStopLoading()]: the start comes before the wait, the stop is
      made on fulfilment and on rejection alike, and the outcome is the
      promise's own, the value it was fulfilled with or the reason it was
      rejected with, thrown again.
    - On a state of the store, for the instance's non-empty key and while
      only callers with other keys (or none) act on the store meanwhile,
      the two wrappers are the actions [startLoading(id)] and
      [stopLoading(id)], events included; the local counter of [id] is
      one more than before the call while the promise is pending and what
      it was before the call once it has settled. *)
Theorem asyncUseLoading_settles id asyncFunction :
  (∀ (meanwhile : M unit) st,
     asyncUseLoading id asyncFunction meanwhile st =
       (localStartLoading id;; meanwhile;;
        localStopLoading id;; mret asyncFunction) st
     ∧ result (asyncUseLoading id asyncFunction meanwhile) st = asyncFunction)
  ∧ (∀ (others : list Call) st,
       id ≠ EmptyString →
       reachable st →
       Forall (λ c, callKey c ≠ Some id) others →
       let wrapped := asyncUseLoading id asyncFunction (performAll others) in
       let pending := state_after (localStartLoading id;; performAll others) st in
       wrapped st =
         (startLoading (Some id);; performAll others;;
          stopLoading (Some id);; mret asyncFunction) st
       ∧ result (getLocalCounter id) pending = result (getLocalCounter id) st + 1
       ∧ result (getLocalCounter id) (state_after wrapped st)
           = result (getLocalCounter id) st).
Proof.
  split.
  - intros meanwhile st. rewrite asyncUseLoading_run. split; [done|].
    transitivity (result (localStartLoading id;; meanwhile;;
                          localStopLoading id;; mret asyncFunction) st).
    { unfold result. by rewrite asyncUseLoading_run. }
    by rewrite !result_bind.
  - intros others st Hid [u Hst]%reachable_balanced Hothers wrapped pending.
    pose proof (counterOr0_nonneg _ id (balanced_nonneg _ _ Hst)) as Hnonneg.
    destruct (started_counts st id Hid) as (_ & _ & Hstarted).
    assert (Hpending : counterOr0 (localCounters pending) id
                       = counterOr0 (localCounters st) id + 1).
    { subst pending. rewrite state_after_bind, state_after_localStartLoading.
      by rewrite other_keys_untouched. }
    assert (Hrun : wrapped st =
      (startLoading (Some id);; performAll others;;
       stopLoading (Some id);; mret asyncFunction) st).
    { subst wrapped. rewrite asyncUseLoading_run.
      apply bind_cong_r; intros _. apply bind_cong_r; intros _.
      assert (Hactive : 0 < counterOr0 (localCounters pending) id) by lia.
      subst pending. rewrite state_after_bind in Hactive.
      apply bind_cong_l. by apply localStopLoading_active. }
    split; [exact Hrun|]. split; [exact Hpending|].
    assert (Hstate : state_after wrapped st = stoppedStore pending (Some id)).
    { transitivity (state_after (startLoading (Some id);; performAll others;;
                                 stopLoading (Some id);; mret asyncFunction) st).
      { unfold state_after. by rewrite Hrun. }
      subst pending. rewrite !state_after_bind.
      apply (state_after_perform _ (CallStop (Some id))). }
    rewrite Hstate, !getLocalCounter_result.
    destruct (stopped_counts pending id Hid) as (_ & _ & ->); lia.
Qed.

End AsyncWrapper.

(** A fetch by ["r0"] that fails while caller ["r1"] starts loading. *)
Lemma asyncUseLoading_settles_witness :
  let wrapped :=
    asyncUseLoading (R := nat) "r0" (rejected "timeout"%string)
      (performAll [CallStart (Some "r1"%string)]) in
  result wrapped sampleStore = rejected "timeout"%string
  ∧ result (getLocalCounter "r0") (state_after wrapped sampleStore) = 0.
Proof.
  assert (Hid : "r0"%string ≠ EmptyString) by discriminate.
  assert (Hothers : Forall (λ c, callKey c ≠ Some "r0"%string)
                      [CallStart (Some "r1"%string)]).
  { repeat constructor. discriminate. }
  destruct (asyncUseLoading_settles (R := nat) "r0" (rejected "timeout"%string))
    as (Halways & Hbalanced).
  destruct (Halways (performAll [CallStart (Some "r1"%string)]) sampleStore)
    as (_ & Hresult).
  destruct (Hbalanced [CallStart (Some "r1"%string)] sampleStore
              Hid sampleStore_reachable Hothers) as (_ & _ & Hlocal).
  split; [exact Hresult|]. rewrite Hlocal. reflexivity.
Defined.

(** C9.  A run that contains a [startLoading()] without a key ends with
    a positive global counter, whatever was called before it and
    whatever is called after it; so with no override set
    [isGlobalLoading()] returns true from then on. *)
Theorem unkeyed_start_is_irreversible (calls_before calls_after : list Call) :
  let st := state_after
              (performAll (calls_before ++ CallStart None :: calls_after))
              initialStore in
  0 < loadingCount st
  ∧ (overrideState st = None → result isGlobalLoading st = true).
Proof.
  intros st.
  assert (Hpos : 0 < loadingCount st).
  { subst st. rewrite performAll_app, performAll_cons.
    destruct (balanced_performAll calls_before _ _ balanced_initial) as [Hc Hu Hn He].
    set (st1 := state_after (performAll calls_before) initialStore) in *.
    assert (Hst2 : balanced (next st1 (CallStart None))
                     (0 + unkeyedStarts calls_before + 1)).
    { by apply (balanced_next st1 _ (CallStart None)). }
    destruct (balanced_performAll calls_after _ _ Hst2) as [Hc' Hu' Hn' _].
    pose proof (sumCounters_nonneg _ Hn').
    assert (0 ≤ unkeyedStarts calls_after) by (unfold unkeyedStarts; lia).
    lia. }
  split; [done|]. intros Hnone.
  change (derive st = true). rewrite derive_eq, Hnone. by apply Z.ltb_lt.
Qed.

(** One start without a key, then a stop without a key and a stop by a
    caller that never started. *)
Lemma unkeyed_start_is_irreversible_witness :
  let st := state_after
              (performAll ([] ++ CallStart None ::
                             [CallStop None; CallStop (Some "a"%string)]))
              initialStore in
  overrideState st = None ∧ loadingCount st = 1 ∧ result isGlobalLoading st = true.
Proof.
  destruct (unkeyed_start_is_irreversible []
              [CallStop None; CallStop (Some "a"%string)]) as (_ & Hloading).
  split; [reflexivity|]. split; [reflexivity|]. apply Hloading. reflexivity.
Defined.

(** * Further properties of the store, the hook and the component *)

(** ** Helpers *)

Section MoreActions.
Implicit Types (st : Store) (instanceId : option string) (id : string).
Implicit Types (c : Call) (calls : list Call).

Lemma emitted_bind {A B} (m : M A) (k : A → M B) st :
  emitted (m ≫= k) st =
    emitted m st ++ emitted (k (result m st)) (state_after m st).
Proof.
  unfold emitted, state_after, result, mbind, M_bind.
  destruct (m st) as [[a st1] ev1]. simpl.
  by destruct (k a st1) as [[b st2] ev2].
Qed.

Lemma emitted_performAll_cons c calls st :
  emitted (performAll (c :: calls)) st =
    emitted (perform c) st ++ emitted (performAll calls) (next st c).
Proof. simpl. by rewrite emitted_bind, state_after_perform. Qed.

Lemma startedStore_lookup st instanceId id :
  localCounters (startedStore st instanceId) !! id =
    if decide (supplied instanceId = Some id)
    then Some (counterOr0 (localCounters st) id + 1)
    else localCounters st !! id.
Proof.
  unfold startedStore. simpl. destruct (supplied instanceId) as [id'|].
  - rewrite lookup_insert. repeat case_decide; congruence.
  - by case_decide.
Qed.

Lemma stoppedStore_lookup st instanceId id :
  localCounters (stoppedStore st instanceId) !! id =
    if decide (supplied instanceId = Some id ∧ 0 < counterOr0 (localCounters st) id)
    then Some (counterOr0 (localCounters st) id - 1)
    else localCounters st !! id.
Proof.
  unfold stoppedStore. destruct (supplied instanceId) as [id'|]; simpl.
  - destruct (0 <? counterOr0 (localCounters st) id') eqn:Hpos; simpl.
    + apply Z.ltb_lt in Hpos. destruct (decide (id' = id)) as [->|Hne].
      * rewrite lookup_insert_eq, decide_True by done. f_equal. lia.
      * rewrite lookup_insert_ne by done.
        rewrite decide_False; [done|]. intros [[= ?] _]. done.
    + apply Z.ltb_ge in Hpos. rewrite decide_False; [done|].
      intros [[= ->] ?]. lia.
  - reflexivity.
Qed.

Lemma stoppedStore_loadingCount st instanceId :
  loadingCount (stoppedStore st instanceId) =
    if stopGate st instanceId then Z.max 0 (loadingCount st - 1) else loadingCount st.
Proof. rewrite stoppedStore_gate. by destruct (stopGate st instanceId). Qed.

Lemma stoppedStore_overrideState st instanceId :
  overrideState (stoppedStore st instanceId) = overrideState st.
Proof. rewrite stoppedStore_gate. by destruct (stopGate st instanceId). Qed.

Lemma counterOr0_startedStore st instanceId id :
  counterOr0 (localCounters (startedStore st instanceId)) id =
    counterOr0 (localCounters st) id
    + (if decide (supplied instanceId = Some id) then 1 else 0).
Proof.
  unfold counterOr0 at 1. rewrite startedStore_lookup.
  case_decide; simpl; [done|]. unfold counterOr0. lia.
Qed.

Lemma counterOr0_stoppedStore st instanceId id :
  counterOr0 (localCounters (stoppedStore st instanceId)) id =
    counterOr0 (localCounters st) id
    - (if decide (supplied instanceId = Some id ∧ 0 < counterOr0 (localCounters st) id)
       then 1 else 0).
Proof.
  unfold counterOr0 at 1. rewrite stoppedStore_lookup.
  case_decide; simpl; [done|]. unfold counterOr0. lia.
Qed.

Lemma state_after_startLoading st instanceId :
  state_after (startLoading instanceId) st = startedStore st instanceId.
Proof. apply (state_after_perform st (CallStart instanceId)). Qed.

Lemma state_after_stopLoading st instanceId :
  state_after (stopLoading instanceId) st = stoppedStore st instanceId.
Proof. apply (state_after_perform st (CallStop instanceId)). Qed.

Lemma state_after_overrideLoading st state :
  state_after (overrideLoading state) st = overriddenStore st state.
Proof. apply (state_after_perform st (CallOverride state)). Qed.

End MoreActions.

(** ** The store's actions, one call at a time *)

(** X1.  What [startLoading] does to a state whose global counter is a
    safe integer, for every optional key: the global counter goes up by
    one and the override is left alone; with a key that passes
    [if (instanceId)] and names no member of [Object.prototype] the local
    counter of that key, a safe integer too, goes up by one, an unseen
    key counting as 0; no entry of [localCounters] under another key
    changes; and without a key [localCounters] is unchanged. *)
Theorem startLoading_effect (st : Store) (instanceId : option string) :
  safeInteger (loadingCount st) →
  let st' := state_after (startLoading instanceId) st in
  loadingCount st' = loadingCount st + 1
  ∧ overrideState st' = overrideState st
  ∧ (∀ id, supplied instanceId = Some id →
       ordinaryKey id →
       safeInteger (result (getLocalCounter id) st) →
       result (getLocalCounter id) st' = result (getLocalCounter id) st + 1)
  ∧ (∀ id, supplied instanceId ≠ Some id →
       localCounters st' !! id = localCounters st !! id)
  ∧ (supplied instanceId = None → localCounters st' = localCounters st).
Proof.
  intros _ st'. subst st'. rewrite state_after_startLoading.
  split; [done|]. split; [done|]. split; [|split].
  - intros id Hkey _ _. rewrite !getLocalCounter_result, counterOr0_startedStore.
    by rewrite decide_True.
  - intros id Hother. rewrite startedStore_lookup. by rewrite decide_False.
  - intros Hnone. unfold startedStore. by rewrite Hnone.
Qed.

Lemma startLoading_effect_witness :
  let st' := state_after (startLoading (Some "a"%string)) sampleStore in
  loadingCount st' = 3 ∧ result (getLocalCounter "a") st' = 2.
Proof.
  assert (Hsafe : safeInteger (loadingCount sampleStore)) by (vm_compute; reflexivity).
  destruct (startLoading_effect sampleStore (Some "a"%string) Hsafe)
    as (Hglobal & _ & Hlocal & _).
  split; [rewrite Hglobal; reflexivity|].
  rewrite (Hlocal "a"%string); [reflexivity|reflexivity| |vm_compute; reflexivity].
  apply (bool_decide_unpack _). vm_compute. exact I.
Defined.

(** X2.  A start and the matching stop cancel.  For a non-empty key
    [id] that names no member of [Object.prototype], on a state whose
    global counter and whose local counter for [id] are safe integers and
    not negative, [startLoading(id)] followed by [stopLoading(id)] gives
    back the global counter, the override and the reading of every local
    counter; what stays behind is the entry of [id] itself, which is
    present afterwards even if it was not before. *)
Theorem start_then_stop_cancels (st : Store) (id : string) :
  id ≠ EmptyString →
  ordinaryKey id →
  safeInteger (loadingCount st) →
  safeInteger (result (getLocalCounter id) st) →
  0 ≤ loadingCount st →
  0 ≤ result (getLocalCounter id) st →
  let st' := state_after (startLoading (Some id);; stopLoading (Some id)) st in
  loadingCount st' = loadingCount st
  ∧ overrideState st' = overrideState st
  ∧ (∀ id', result (getLocalCounter id') st' = result (getLocalCounter id') st)
  ∧ localCounters st' = <[id := result (getLocalCounter id) st]> (localCounters st).
Proof.
  intros Hid _ _ _ Hglobal Hlocal st'. subst st'.
  rewrite getLocalCounter_result in Hlocal.
  rewrite state_after_bind, state_after_startLoading, state_after_stopLoading.
  destruct (started_counts st id Hid) as (Hc & Ho & Hl).
  set (s1 := startedStore st (Some id)) in *.
  destruct (stopped_counts s1 id Hid) as (Hc' & Ho' & Hl'); [lia|].
  assert (Hmap : localCounters (stoppedStore s1 (Some id))
                 = <[id := counterOr0 (localCounters st) id]> (localCounters st)).
  { apply map_eq. intros id'. rewrite stoppedStore_lookup.
    rewrite (supplied_nonempty id Hid).
    destruct (decide (id' = id)) as [->|Hne].
    - rewrite decide_True by (split; [done|lia]).
      rewrite lookup_insert_eq. f_equal. lia.
    - rewrite decide_False by (intros [[= ->] _]; done).
      subst s1. rewrite startedStore_lookup, (supplied_nonempty id Hid).
      rewrite decide_False by congruence. by rewrite lookup_insert_ne. }
  split; [lia|]. split; [congruence|]. split; [|by rewrite getLocalCounter_result].
  intros id'. rewrite !getLocalCounter_result, Hmap.
  unfold counterOr0 at 1. rewrite lookup_insert. case_decide; [by subst|done].
Qed.

Lemma start_then_stop_cancels_witness :
  let st' := state_after (startLoading (Some "b"%string);; stopLoading (Some "b"%string))
               sampleStore in
  loadingCount st' = 2
  ∧ localCounters st' !! "b"%string = Some 0
  ∧ localCounters sampleStore !! "b"%string = None.
Proof.
  assert (Hid : "b"%string ≠ EmptyString) by discriminate.
  assert (Hkey : ordinaryKey "b").
  { apply (bool_decide_unpack _). vm_compute. exact I. }
  assert (Hsafe : safeInteger (loadingCount sampleStore)) by (vm_compute; reflexivity).
  assert (Hsafe' : safeInteger (result (getLocalCounter "b") sampleStore))
    by (vm_compute; reflexivity).
  assert (Hglobal : 0 ≤ loadingCount sampleStore) by (vm_compute; discriminate).
  assert (Hlocal : 0 ≤ result (getLocalCounter "b") sampleStore)
    by (vm_compute; discriminate).
  destruct (start_then_stop_cancels sampleStore "b"%string
              Hid Hkey Hsafe Hsafe' Hglobal Hlocal)
    as (Hcount & _ & _ & Hmap).
  split; [exact Hcount|]. split; [|reflexivity].
  rewrite Hmap. apply lookup_insert_eq.
Defined.

Section Entries.
Implicit Types (st : Store) (id : string) (c : Call) (calls : list Call).

Lemma entry_after_call st c id :
  is_Some (localCounters (next st c) !! id) ↔
  is_Some (localCounters st !! id) ∨ (id ≠ EmptyString ∧ c = CallStart (Some id)).
Proof.
  destruct c as [instanceId|instanceId|state]; unfold next.
  - rewrite startedStore_lookup. case_decide as Hkey.
    + apply supplied_Some in Hkey as [-> Hid]. split; [|by eauto].
      intros _. by right.
    + split; [by left|]. intros [Hin|[Hid [= ->]]]; [done|].
      by rewrite supplied_nonempty in Hkey.
  - rewrite stoppedStore_lookup. case_decide as Hgate.
    + destruct Hgate as [_ Hpos]. unfold counterOr0 in Hpos.
      destruct (localCounters st !! id) as [n|]; simpl in Hpos; [|lia].
      split; [by eauto|by eauto].
    + split; [by left|]. by intros [Hin|[_ [=]]].
  - split; [by left|]. by intros [Hin|[_ [=]]].
Qed.

Lemma entry_after_calls calls st id :
  is_Some (localCounters (state_after (performAll calls) st) !! id) ↔
  is_Some (localCounters st !! id)
  ∨ (id ≠ EmptyString ∧ CallStart (Some id) ∈ calls).
Proof.
  revert st. induction calls as [|c calls IH]; intros st.
  - simpl. split; [by left|]. intros [Hin|[_ Hin]]; [done|].
    by apply elem_of_nil in Hin.
  - rewrite performAll_cons, IH, entry_after_call, elem_of_cons.
    split.
    + intros [[Hin|[Hid ->]]|[Hid Hlater]]; auto.
    + intros [Hin|[Hid [->|Hlater]]]; auto.
Qed.

End Entries.

(** X3.  Entries of [localCounters] are created by [startLoading] with a
    non-empty key and by nothing else, and they are never removed: after
    any run of calls a key has an entry if and only if it had one before
    or the run contains a [startLoading] with that key.  From the initial
    state the keys with an entry are exactly the non-empty keys that were
    started, however many stops followed. *)
Theorem entries_are_made_by_starts_and_kept (calls : list Call) (st : Store) (id : string) :
  (is_Some (localCounters (state_after (performAll calls) st) !! id) ↔
   is_Some (localCounters st !! id)
   ∨ (id ≠ EmptyString ∧ CallStart (Some id) ∈ calls))
  ∧ (is_Some (localCounters (state_after (performAll calls) initialStore) !! id) ↔
     id ≠ EmptyString ∧ CallStart (Some id) ∈ calls).
Proof.
  split; [apply entry_after_calls|].
  rewrite entry_after_calls. simpl. rewrite lookup_empty. split.
  - intros [[n Hn]|Hstarted]; [discriminate|done].
  - by right.
Qed.

(** X4.  The empty string is no key.  [startLoading] and [stopLoading]
    called with the empty string do exactly what they do when called
    without a key, state and events alike; so a hook instance whose id is
    the empty string raises the global counter with each
    [startLoading()] and its [stopLoading()] never lowers it again: on a
    state of the store the pair leaves the global counter one higher. *)
Theorem empty_key_is_no_key (st : Store) :
  startLoading (Some EmptyString) st = startLoading None st
  ∧ stopLoading (Some EmptyString) st = stopLoading None st
  ∧ (reachable st →
     result (isLocalLoading EmptyString) st = false
     ∧ loadingCount
         (state_after (localStartLoading EmptyString;; localStopLoading EmptyString) st)
       = loadingCount st + 1).
Proof.
  split; [reflexivity|]. split; [reflexivity|].
  intros [u Hst]%reachable_balanced.
  assert (Hzero : ∀ s, localCounters s !! EmptyString = None →
            (0 <? counterOr0 (localCounters s) EmptyString) = false).
  { intros s Hs. unfold counterOr0. by rewrite Hs. }
  split.
  - apply Hzero, (balanced_empty_key _ _ Hst).
  - rewrite state_after_bind, state_after_localStartLoading,
      state_after_localStopLoading. reflexivity.
Qed.

Lemma empty_key_is_no_key_witness :
  loadingCount
    (state_after (localStartLoading EmptyString;; localStopLoading EmptyString) sampleStore)
  = 3.
Proof.
  destruct (empty_key_is_no_key sampleStore) as (_ & _ & Hleak).
  destruct (Hleak sampleStore_reachable) as (_ & ->). reflexivity.
Defined.

(** X5.  [startLoading] never turns the derived boolean off and
    [stopLoading] never turns it on, in any state and for any key: if
    [isGlobalLoading()] returned true before a [startLoading] it returns
    true after it, and if it returns true after a [stopLoading] it
    returned true before. *)
Theorem start_keeps_loading_stop_keeps_idle (st : Store) (instanceId : option string) :
  (result isGlobalLoading st = true →
   result isGlobalLoading (state_after (startLoading instanceId) st) = true)
  ∧ (result isGlobalLoading (state_after (stopLoading instanceId) st) = true →
     result isGlobalLoading st = true).
Proof.
  rewrite state_after_startLoading, state_after_stopLoading. split.
  - apply derive_startedStore.
  - apply derive_stoppedStore.
Qed.

Lemma start_keeps_loading_stop_keeps_idle_witness :
  result isGlobalLoading (state_after (startLoading None) sampleStore) = true
  ∧ result isGlobalLoading sampleStore = true.
Proof.
  destruct (start_keeps_loading_stop_keeps_idle sampleStore None) as (Hstart & Hstop).
  split; [apply Hstart; reflexivity|apply Hstop; reflexivity].
Defined.

(** X6.  While an override is set the counters are out of sight: a
    [startLoading] or [stopLoading], with or without a key, emits a single
    [change] event, whose payload carries the override as [isLoading] and
    [isOverrideState = true], and neither [start] nor [stop]; the override
    itself stays as it is. *)
Theorem under_override_only_change (st : Store) (b : bool) (instanceId : option string) :
  overrideState st = Some b →
  let payload := {| payload_isLoading := b; isOverrideState := true |} in
  emitted (startLoading instanceId) st = [change payload]
  ∧ emitted (stopLoading instanceId) st = [change payload]
  ∧ overrideState (state_after (startLoading instanceId) st) = Some b
  ∧ overrideState (state_after (stopLoading instanceId) st) = Some b.
Proof.
  intros Hset payload. subst payload.
  assert (Hd : ∀ s, overrideState s = Some b → derive s = b).
  { intros s Hs. by rewrite derive_eq, Hs. }
  rewrite state_after_startLoading, state_after_stopLoading,
    stoppedStore_overrideState.
  unfold emitted. rewrite startLoading_run, stopLoading_run. simpl.
  rewrite !(Hd st Hset), (Hd (startedStore st instanceId) Hset),
    (Hd (stoppedStore st instanceId))
    by (by rewrite stoppedStore_overrideState).
  rewrite Hset. by destruct b.
Qed.

Lemma under_override_only_change_witness :
  emitted (stopLoading (Some "a"%string))
    (state_after (overrideLoading (Some false)) sampleStore)
  = [change {| payload_isLoading := false; isOverrideState := true |}].
Proof.
  apply (under_override_only_change
           (state_after (overrideLoading (Some false)) sampleStore) false
           (Some "a"%string)).
  reflexivity.
Defined.

(** ** Runs of calls: counters against the number of calls *)

Section Counting.
Implicit Types (st : Store) (id : string) (c : Call) (calls : list Call).

Lemma countCalls_nil p : countCalls p [] = 0.
Proof. reflexivity. Qed.

Lemma countCalls_cons p c calls :
  countCalls p (c :: calls) = (if p c then 1 else 0) + countCalls p calls.
Proof.
  unfold countCalls. rewrite filter_cons.
  destruct (p c); case_decide; try done; simpl length; lia.
Qed.

Lemma countCalls_nonneg p calls : 0 ≤ countCalls p calls.
Proof. unfold countCalls. lia. Qed.

Lemma countEvents_app p (events1 events2 : list LoadingEvent) :
  countEvents p (events1 ++ events2) = countEvents p events1 + countEvents p events2.
Proof. unfold countEvents. rewrite filter_app, length_app. lia. Qed.

(** One call moves the local counter of [id] by the start it is, less the
    stop it is when the counter is positive. *)
Lemma local_after_call st c id :
  counterOr0 (localCounters (next st c)) id =
    counterOr0 (localCounters st) id
    + (if isStartOf id c then 1 else 0)
    - (if isStopOf id c && (0 <? counterOr0 (localCounters st) id) then 1 else 0).
Proof.
  destruct c as [instanceId|instanceId|state];
    unfold next, isStartOf, isStopOf, isStartCall, isStopCall, callKey; cbn [andb].
  - rewrite counterOr0_startedStore.
    destruct (decide (supplied instanceId = Some id)) as [Hkey|Hkey].
    + rewrite bool_decide_eq_true_2 by done. lia.
    + rewrite bool_decide_eq_false_2 by done. lia.
  - rewrite counterOr0_stoppedStore.
    destruct (decide (supplied instanceId = Some id)) as [Hkey|Hkey].
    + rewrite bool_decide_eq_true_2 by done.
      destruct (0 <? counterOr0 (localCounters st) id) eqn:Hpos.
      * apply Z.ltb_lt in Hpos. rewrite decide_True by done. simpl. lia.
      * apply Z.ltb_ge in Hpos. rewrite decide_False; [simpl; lia|]. intros [_ ?]. lia.
    + rewrite bool_decide_eq_false_2 by done.
      rewrite decide_False; [simpl; lia|]. by intros [? _].
  - simpl. lia.
Qed.

Lemma local_bounds calls st id :
  0 ≤ counterOr0 (localCounters st) id →
  let final := counterOr0 (localCounters (state_after (performAll calls) st)) id in
  0 ≤ final
  ∧ counterOr0 (localCounters st) id
      + countCalls (isStartOf id) calls - countCalls (isStopOf id) calls ≤ final
  ∧ final ≤ counterOr0 (localCounters st) id + countCalls (isStartOf id) calls.
Proof.
  revert st. induction calls as [|c calls IH]; intros st Hnonneg final; subst final.
  - rewrite !countCalls_nil. change (state_after (performAll []) st) with st. lia.
  - rewrite performAll_cons, !countCalls_cons.
    pose proof (local_after_call st c id) as Hstep.
    assert (Hnext : 0 ≤ counterOr0 (localCounters (next st c)) id).
    { rewrite Hstep.
      destruct (isStartOf id c), (isStopOf id c),
        (0 <? counterOr0 (localCounters st) id) eqn:Hpos; simpl;
        try apply Z.ltb_lt in Hpos; lia. }
    destruct (IH (next st c) Hnext) as (H0 & Hlow & Hhigh).
    split; [done|]. rewrite Hstep in Hlow, Hhigh.
    destruct (isStartOf id c), (isStopOf id c),
      (0 <? counterOr0 (localCounters st) id); simpl in *; lia.
Qed.

Lemma global_after_call st c :
  loadingCount (next st c) =
    match c with
    | CallStart _ => loadingCount st + 1
    | CallStop instanceId =>
        if stopGate st instanceId then Z.max 0 (loadingCount st - 1) else loadingCount st
    | CallOverride _ => loadingCount st
    end.
Proof. destruct c; unfold next; [done|apply stoppedStore_loadingCount|done]. Qed.

Lemma global_bounds calls st :
  0 ≤ loadingCount st →
  let final := loadingCount (state_after (performAll calls) st) in
  0 ≤ final
  ∧ loadingCount st + countCalls isStartCall calls - countCalls isStopCall calls ≤ final
  ∧ final ≤ loadingCount st + countCalls isStartCall calls.
Proof.
  revert st. induction calls as [|c calls IH]; intros st Hnonneg final; subst final.
  - rewrite !countCalls_nil. change (state_after (performAll []) st) with st. lia.
  - rewrite performAll_cons, !countCalls_cons.
    pose proof (global_after_call st c) as Hstep.
    assert (Hnext : 0 ≤ loadingCount (next st c)).
    { rewrite Hstep. destruct c as [?|instanceId|?]; [lia| |lia].
      destruct (stopGate st instanceId); lia. }
    destruct (IH (next st c) Hnext) as (H0 & Hlow & Hhigh).
    split; [done|]. rewrite Hstep in Hlow, Hhigh.
    destruct c as [?|instanceId|?]; simpl in *; [lia| |lia].
    destruct (stopGate st instanceId); lia.
Qed.

End Counting.

(** X7.  After any run of calls from the initial state the local counter
    of a key that names no member of [Object.prototype] lies between the
    number of starts with that key less the number of stops with that
    key, and the number of starts with that key; it is never negative.
    Stops made while the counter is 0 are why it can exceed the
    difference. *)
Theorem local_counter_between_calls (calls : list Call) (id : string) :
  ordinaryKey id →
  let final := result (getLocalCounter id)
                 (state_after (performAll calls) initialStore) in
  0 ≤ final
  ∧ countCalls (isStartOf id) calls - countCalls (isStopOf id) calls ≤ final
  ∧ final ≤ countCalls (isStartOf id) calls.
Proof.
  intros _ final. subst final. rewrite getLocalCounter_result.
  assert (Hzero : counterOr0 (localCounters initialStore) id = 0) by done.
  destruct (local_bounds calls initialStore id) as (H0 & Hlow & Hhigh); [lia|].
  rewrite Hzero in Hlow, Hhigh. lia.
Qed.

Lemma local_counter_between_calls_witness :
  let calls := [CallStop (Some "a"%string); CallStart (Some "a"%string);
                CallStart (Some "a"%string); CallStop (Some "a"%string)] in
  let final := result (getLocalCounter "a")
                 (state_after (performAll calls) initialStore) in
  2 - 2 ≤ final ∧ final ≤ 2.
Proof.
  intros calls final.
  assert (Hkey : ordinaryKey "a").
  { apply (bool_decide_unpack _). vm_compute. exact I. }
  destruct (local_counter_between_calls calls "a"%string Hkey) as (_ & Hlow & Hhigh).
  split; [exact Hlow|exact Hhigh].
Defined.

(** X8.  After any run of calls from the initial state the global counter
    lies between the number of [startLoading] calls less the number of
    [stopLoading] calls, and the number of [startLoading] calls.  So a run
    with more starts than stops, keyed or not, ends loading unless an
    override says otherwise. *)
Theorem global_counter_between_calls (calls : list Call) :
  let st := state_after (performAll calls) initialStore in
  (countCalls isStartCall calls - countCalls isStopCall calls ≤ loadingCount st
   ∧ loadingCount st ≤ countCalls isStartCall calls)
  ∧ (countCalls isStopCall calls < countCalls isStartCall calls →
     overrideState st = None →
     result isGlobalLoading st = true).
Proof.
  intros st. subst st.
  destruct (global_bounds calls initialStore) as (H0 & Hlow & Hhigh); [simpl; lia|].
  simpl in Hlow, Hhigh. split; [lia|]. intros Hmore Hnone.
  change (derive (state_after (performAll calls) initialStore) = true).
  rewrite derive_eq, Hnone. apply Z.ltb_lt. lia.
Qed.

Lemma global_counter_between_calls_witness :
  result isGlobalLoading
    (state_after (performAll [CallStart None; CallStop None; CallStart (Some "a"%string)])
       initialStore) = true.
Proof.
  destruct (global_counter_between_calls
              [CallStart None; CallStop None; CallStart (Some "a"%string)])
    as (_ & Hloading).
  apply Hloading; [vm_compute; reflexivity|reflexivity].
Defined.

(** ** Runs of calls: the override and the counters do not meet *)

Section Overrides.
Implicit Types (st : Store) (c : Call) (calls : list Call).

(** The counters after a call depend on the counters before it only. *)
Lemma counts_after_call st1 st2 c :
  loadingCount st1 = loadingCount st2 →
  localCounters st1 = localCounters st2 →
  loadingCount (next st1 c) = loadingCount (next st2 c)
  ∧ localCounters (next st1 c) = localCounters (next st2 c).
Proof.
  intros Hcount Hlocal. destruct c as [instanceId|instanceId|state]; unfold next.
  - unfold startedStore. simpl. by rewrite Hcount, Hlocal.
  - rewrite !stoppedStore_gate. unfold stopGate. rewrite Hlocal.
    destruct (supplied instanceId) as [id|]; [|done].
    destruct (0 <? counterOr0 (localCounters st2) id); simpl; [|done].
    by rewrite Hcount.
  - done.
Qed.

Lemma counts_without_overrides calls st1 st2 :
  loadingCount st1 = loadingCount st2 →
  localCounters st1 = localCounters st2 →
  loadingCount (state_after (performAll calls) st1)
    = loadingCount (state_after
        (performAll (filter (λ c, isOverrideCall c = false) calls)) st2)
  ∧ localCounters (state_after (performAll calls) st1)
    = localCounters (state_after
        (performAll (filter (λ c, isOverrideCall c = false) calls)) st2).
Proof.
  revert st1 st2. induction calls as [|c calls IH]; intros st1 st2 Hcount Hlocal.
  - done.
  - rewrite filter_cons, performAll_cons. case_decide as Hc.
    + rewrite performAll_cons.
      destruct (counts_after_call st1 st2 c Hcount Hlocal). by apply IH.
    + destruct c as [?|?|state]; [done|done|]. by apply IH.
Qed.

Lemma override_after_call st c :
  overrideState (next st c) =
    match c with CallOverride state => state | _ => overrideState st end.
Proof. destruct c; unfold next; [done|apply stoppedStore_overrideState|done]. Qed.

Lemma override_after_calls calls st :
  overrideState (state_after (performAll calls) st) =
    default (overrideState st) (lastOverride calls).
Proof.
  revert st. induction calls as [|c calls IH]; intros st; [done|].
  rewrite performAll_cons, IH, override_after_call. simpl.
  by destruct (lastOverride calls), c.
Qed.

End Overrides.

(** X9.  [overrideLoading] never touches a counter: a run of calls ends
    with the same global counter and the same local counters as the run
    with every [overrideLoading] left out, wherever the overrides stood. *)
Theorem counters_ignore_overrides (calls : list Call) (st : Store) :
  let kept := filter (λ c, isOverrideCall c = false) calls in
  loadingCount (state_after (performAll calls) st)
    = loadingCount (state_after (performAll kept) st)
  ∧ localCounters (state_after (performAll calls) st)
    = localCounters (state_after (performAll kept) st).
Proof. by apply counts_without_overrides. Qed.

(** X10.  The override is the argument of the last [overrideLoading] of
    the run, and what it was before when the run has none: no
    [startLoading] or [stopLoading] changes it, so an override stays in
    force until it is replaced or cleared with [overrideLoading(null)]. *)
Theorem override_is_last_write (calls : list Call) (st : Store) :
  overrideState (state_after (performAll calls) st) =
    match lastOverride calls with
    | Some state => state
    | None => overrideState st
    end.
Proof. rewrite override_after_calls. by destruct (lastOverride calls). Qed.

(** ** Runs of calls: the events *)

Section EventBalance.
Implicit Types (st : Store) (c : Call) (calls : list Call).

Lemma events_of_call_counts st c :
  countEvents isChange (emitted (perform c) st) = 1
  ∧ countEvents isStart (emitted (perform c) st)
    - countEvents isStop (emitted (perform c) st)
    = Z.b2z (derive (next st c)) - Z.b2z (derive st).
Proof.
  rewrite emitted_perform.
  by destruct (derive st), (derive (next st c)).
Qed.

Lemma events_of_calls_counts calls st :
  countEvents isChange (emitted (performAll calls) st) = Z.of_nat (length calls)
  ∧ countEvents isStart (emitted (performAll calls) st)
    - countEvents isStop (emitted (performAll calls) st)
    = Z.b2z (derive (state_after (performAll calls) st)) - Z.b2z (derive st).
Proof.
  revert st. induction calls as [|c calls IH]; intros st.
  - change (state_after (performAll []) st) with st.
    change (emitted (performAll []) st) with (@nil LoadingEvent).
    split; [done|]. unfold countEvents. simpl. lia.
  - rewrite emitted_performAll_cons, performAll_cons, !countEvents_app.
    destruct (events_of_call_counts st c) as (Hchange & Hedges).
    destruct (IH (next st c)) as (Hchanges & Hrest).
    rewrite Hchange, Hchanges. split; [simpl length; lia|lia].
Qed.

End EventBalance.

(** X11.  Over a whole run of calls, from any state, the events add up:
    there are as many [change] events as calls, and the number of [start]
    events less the number of [stop] events is the derived boolean at the
    end less the derived boolean at the beginning (each read as 0 or 1).
    From an idle store the starts are therefore as many as the stops, or
    one more while it is loading. *)
Theorem events_balance_over_a_run (calls : list Call) (st : Store) :
  let events := emitted (performAll calls) st in
  let st' := state_after (performAll calls) st in
  countEvents isChange events = Z.of_nat (length calls)
  ∧ countEvents isStart events - countEvents isStop events
    = Z.b2z (result isGlobalLoading st') - Z.b2z (result isGlobalLoading st).
Proof. apply events_of_calls_counts. Qed.

(** ** One hook instance *)

Section HookInstance.
Implicit Types (st : Store) (id : string).

Lemma state_after_repeatM_S (n : nat) (m : M unit) st :
  state_after (repeatM (S n) m) st = state_after (repeatM n m) (state_after m st).
Proof. simpl. by rewrite state_after_bind. Qed.

Lemma localStopLoading_idle id st :
  (0 <? counterOr0 (localCounters st) id) = false →
  localStopLoading id st = (tt, st, []).
Proof.
  intros Hidle. unfold localStopLoading, isLocalLoading.
  unfold mbind, M_bind, get, mret, M_ret. simpl. by rewrite Hidle.
Qed.

Lemma stopLoading_idle id st :
  (0 <? counterOr0 (localCounters st) id) = false →
  stopLoading (Some id) st = stopLoading None st.
Proof.
  intros Hidle. rewrite !stopLoading_run.
  assert (stoppedStore st (Some id) = st) as ->.
  { rewrite stoppedStore_gate. unfold stopGate.
    destruct (supplied (Some id)) as [id'|] eqn:Hkey; [|done].
    apply supplied_Some in Hkey as [[= <-] _]. by rewrite Hidle. }
  done.
Qed.

(** [m] stops on a caller whose counters satisfy [0 ≤ local ≤ global]. *)
Lemma stops_count_down (m : nat) id st :
  id ≠ EmptyString →
  0 ≤ counterOr0 (localCounters st) id →
  counterOr0 (localCounters st) id ≤ loadingCount st →
  let st' := state_after (repeatM m (localStopLoading id)) st in
  counterOr0 (localCounters st') id
    = Z.max 0 (counterOr0 (localCounters st) id - Z.of_nat m)
  ∧ loadingCount st'
    = loadingCount st - Z.min (Z.of_nat m) (counterOr0 (localCounters st) id).
Proof.
  intros Hid. revert st. induction m as [|m IH]; intros st Hlocal Hglobal st'; subst st'.
  - change (state_after (repeatM 0 (localStopLoading id)) st) with st. lia.
  - rewrite state_after_repeatM_S, state_after_localStopLoading.
    destruct (decide (0 < counterOr0 (localCounters st) id)) as [Hpos|Hzero].
    + destruct (stopped_counts st id Hid Hpos) as (Hc & _ & Hl).
      destruct (IH (stoppedStore st (Some id))) as (Hl' & Hc'); [lia|lia|].
      rewrite Hl', Hc', Hl, Hc. lia.
    + assert (counterOr0 (localCounters st) id = 0) as Hl by lia.
      rewrite (orphan_stop_unchanged st id Hl : stoppedStore st (Some id) = st).
      destruct (IH st) as (Hl' & Hc'); [lia|lia|].
      rewrite Hl', Hc', Hl. lia.
Qed.

Lemma starts_count_up (n : nat) id st :
  id ≠ EmptyString →
  let st' := state_after (repeatM n (localStartLoading id)) st in
  counterOr0 (localCounters st') id = counterOr0 (localCounters st) id + Z.of_nat n
  ∧ loadingCount st' = loadingCount st + Z.of_nat n.
Proof.
  intros Hid. revert st. induction n as [|n IH]; intros st st'; subst st'.
  - change (state_after (repeatM 0 (localStartLoading id)) st) with st. lia.
  - rewrite state_after_repeatM_S, state_after_localStartLoading.
    destruct (started_counts st id Hid) as (Hc & _ & Hl).
    destruct (IH (startedStore st (Some id))) as (Hl' & Hc').
    rewrite Hl', Hc', Hl, Hc. lia.
Qed.

End HookInstance.

(** X12.  A [stopLoading()] too many does nothing at all when it goes
    through the hook: while the instance's local counter is not positive,
    any number of the hook's [stopLoading()] leave the state as it is and
    emit no event.  The same stops made on the store's action also leave
    the state as it is but emit one [change] event each. *)
Theorem extra_hook_stops_are_silent (st : Store) (id : string) (n : nat) :
  result (isLocalLoading id) st = false →
  repeatM n (localStopLoading id) st = (tt, st, [])
  ∧ state_after (performAll (replicate n (CallStop (Some id)))) st = st
  ∧ countEvents isChange (emitted (performAll (replicate n (CallStop (Some id)))) st)
    = Z.of_nat n.
Proof.
  intros Hidle.
  change ((0 <? counterOr0 (localCounters st) id) = false) in Hidle.
  split; [|split].
  - induction n as [|n IH]; [done|].
    simpl. unfold mbind, M_bind.
    by rewrite (localStopLoading_idle id st Hidle), IH.
  - induction n as [|n IH]; [done|].
    simpl replicate. rewrite performAll_cons.
    assert (next st (CallStop (Some id)) = st) as ->; [|done].
    rewrite <- state_after_perform. simpl perform.
    unfold state_after. by rewrite (stopLoading_idle id st Hidle), stopLoading_unkeyed_run.
  - destruct (events_of_calls_counts (replicate n (CallStop (Some id))) st) as [-> _].
    by rewrite length_replicate.
Qed.

Lemma extra_hook_stops_are_silent_witness :
  repeatM 3 (localStopLoading "b") sampleStore = (tt, sampleStore, []).
Proof.
  apply (extra_hook_stops_are_silent sampleStore "b"%string 3). reflexivity.
Defined.

(** X13.  Reference counting through one hook instance.  On a state of
    the store where the instance's local counter is [l] and the global
    counter [g], [n] calls of the hook's [startLoading()] followed by [m]
    calls of its [stopLoading()] leave the local counter at
    [max 0 (l + n - m)] and the global counter at [g + n - min m (l + n)]:
    every start counts, and a stop counts as long as the instance has a
    start left to undo. *)
Theorem hook_reference_counting (st : Store) (id : string) (n m : nat) :
  id ≠ EmptyString →
  reachable st →
  let l := result (getLocalCounter id) st in
  let st' := state_after
               (repeatM n (localStartLoading id);; repeatM m (localStopLoading id)) st in
  result (getLocalCounter id) st' = Z.max 0 (l + Z.of_nat n - Z.of_nat m)
  ∧ loadingCount st' = loadingCount st + Z.of_nat n - Z.min (Z.of_nat m) (l + Z.of_nat n).
Proof.
  intros Hid [u Hst]%reachable_balanced l st'. subst l st'.
  rewrite !getLocalCounter_result, state_after_bind.
  pose proof (counterOr0_nonneg _ id (balanced_nonneg _ _ Hst)) as Hnonneg.
  pose proof (balanced_dominates st u id Hst) as Hdom.
  destruct (starts_count_up n id st Hid) as (Hl & Hc).
  set (s1 := state_after (repeatM n (localStartLoading id)) st) in *.
  destruct (stops_count_down m id s1 Hid) as (Hl' & Hc'); [lia|lia|].
  rewrite Hl', Hc', Hl, Hc. lia.
Qed.

Lemma hook_reference_counting_witness :
  let st' := state_after
               (repeatM 2 (localStartLoading "a");; repeatM 5 (localStopLoading "a"))
               sampleStore in
  result (getLocalCounter "a") st' = 0 ∧ loadingCount st' = 1.
Proof.
  assert (Hid : "a"%string ≠ EmptyString) by discriminate.
  destruct (hook_reference_counting sampleStore "a"%string 2 5 Hid sampleStore_reachable)
    as (Hlocal & Hglobal).
  split; [rewrite Hlocal|rewrite Hglobal]; reflexivity.
Defined.

(** ** Nested waits *)

Section Nesting.
Context {R E : Type}.
Implicit Types (st : Store) (id : string) (asyncFunction : Settled R E).

Lemma state_after_asyncUseLoading id asyncFunction (meanwhile : M unit) st :
  state_after (asyncUseLoading id asyncFunction meanwhile) st =
    state_after (localStopLoading id)
      (state_after meanwhile (state_after (localStartLoading id) st)).
Proof.
  transitivity (state_after (localStartLoading id;; meanwhile;;
                             localStopLoading id;; mret asyncFunction) st).
  { unfold state_after. by rewrite asyncUseLoading_run. }
  by rewrite !state_after_bind.
Qed.

(** X14.  Waits nest.  For a non-empty key, if what runs against the
    store while the promise is pending gives back the global counter and
    the instance's local counter (on any state where they are not
    negative), so does the whole [asyncUseLoading]: both counters are one
    higher while it waits and back where they were once the promise has
    settled, whichever way.  What runs meanwhile may be another
    [asyncUseLoading] of the same instance. *)
Theorem asyncUseLoading_nests id asyncFunction (meanwhile : M unit) :
  id ≠ EmptyString →
  keepsCounts id meanwhile →
  keepsCounts id (asyncUseLoading id asyncFunction meanwhile)
  ∧ ∀ st, 0 ≤ loadingCount st → 0 ≤ counterOr0 (localCounters st) id →
      let pending := state_after (localStartLoading id;; meanwhile) st in
      loadingCount pending = loadingCount st + 1
      ∧ counterOr0 (localCounters pending) id = counterOr0 (localCounters st) id + 1.
Proof.
  intros Hid Hmeanwhile.
  assert (Hpending : ∀ st, 0 ≤ loadingCount st → 0 ≤ counterOr0 (localCounters st) id →
            loadingCount (state_after meanwhile (startedStore st (Some id)))
              = loadingCount st + 1
            ∧ counterOr0 (localCounters
                (state_after meanwhile (startedStore st (Some id)))) id
              = counterOr0 (localCounters st) id + 1).
  { intros st Hglobal Hlocal.
    destruct (started_counts st id Hid) as (Hc & _ & Hl).
    destruct (Hmeanwhile (startedStore st (Some id))) as (Hc' & Hl'); [lia|lia|].
    rewrite Hc', Hl'. lia. }
  split.
  - intros st Hglobal Hlocal.
    rewrite state_after_asyncUseLoading, state_after_localStartLoading,
      state_after_localStopLoading.
    destruct (Hpending st Hglobal Hlocal) as (Hc & Hl).
    destruct (stopped_counts (state_after meanwhile (startedStore st (Some id))) id Hid)
      as (Hc' & _ & Hl'); [lia|].
    rewrite Hc', Hl'. lia.
  - intros st Hglobal Hlocal pending. subst pending.
    rewrite state_after_bind, state_after_localStartLoading. by apply Hpending.
Qed.

End Nesting.

(** A fetch by ["a"] inside another fetch by ["a"]. *)
Lemma asyncUseLoading_nests_witness :
  loadingCount
    (state_after
       (asyncUseLoading (E := string) "a" (fulfilled 1%nat)
          (asyncUseLoading (R := nat) "a" (rejected "timeout"%string) (mret tt);;
           mret tt))
       sampleStore)
  = loadingCount sampleStore.
Proof.
  assert (Hid : "a"%string ≠ EmptyString) by discriminate.
  assert (Hnone : keepsCounts "a" (mret tt : M unit)) by (intros st _ _; done).
  destruct (asyncUseLoading_nests (R := nat) "a" (rejected "timeout"%string)
              (mret tt) Hid Hnone) as (Hinner & _).
  assert (Hmeanwhile : keepsCounts "a"
            (asyncUseLoading (R := nat) "a" (rejected "timeout"%string) (mret tt);;
             mret tt : M unit)).
  { intros st Hglobal Hlocal. rewrite state_after_bind. by apply Hinner. }
  destruct (asyncUseLoading_nests (E := string) "a" (fulfilled 1%nat) _ Hid Hmeanwhile)
    as (Houter & _).
  apply Houter; vm_compute; discriminate.
Defined.

(** ** The [Loading] component *)

Section Component.
Implicit Types (st : Store) (id : string).

Lemma last_cons_first {A} (rest : list A) (a d : A) :
  List.last (a :: rest) d = List.last rest a.
Proof.
  revert a d. induction rest as [|b rest IH]; intros a d; [done|].
  change (List.last (a :: b :: rest) d) with (List.last (b :: rest) d).
  by rewrite (IH b d), (IH b a).
Qed.

Lemma loadingEffect_counts id (isLoading : bool) (g : Z) st :
  id ≠ EmptyString →
  0 ≤ g →
  loadingCount st = g →
  counterOr0 (localCounters st) id = 0 →
  loadingCount (state_after (loadingEffect id isLoading) st) = g + Z.b2z isLoading
  ∧ counterOr0 (localCounters (state_after (loadingEffect id isLoading) st)) id
    = Z.b2z isLoading.
Proof.
  intros Hid Hg Hcount Hlocal. destruct isLoading; unfold loadingEffect.
  - rewrite state_after_localStartLoading.
    destruct (started_counts st id Hid) as (Hc & _ & Hl). cbn [Z.b2z]. lia.
  - rewrite state_after_localStopLoading.
    rewrite (orphan_stop_unchanged st id Hlocal : stoppedStore st (Some id) = st).
    cbn [Z.b2z]. lia.
Qed.

Lemma loadingCleanup_counts id (isLoading : bool) (g : Z) st :
  id ≠ EmptyString →
  0 ≤ g →
  loadingCount st = g + Z.b2z isLoading →
  counterOr0 (localCounters st) id = Z.b2z isLoading →
  loadingCount (state_after (loadingCleanup id isLoading) st) = g
  ∧ counterOr0 (localCounters (state_after (loadingCleanup id isLoading) st)) id = 0.
Proof.
  intros Hid Hg Hcount Hlocal. destruct isLoading; unfold loadingCleanup.
  - rewrite state_after_localStopLoading. cbn [Z.b2z] in Hcount, Hlocal.
    destruct (stopped_counts st id Hid) as (Hc & _ & Hl); lia.
  - change (state_after (mret tt) st) with st. cbn [Z.b2z] in Hcount, Hlocal. lia.
Qed.

Lemma loadingRerun_counts id (later : list bool) (current : bool) (g : Z) st :
  id ≠ EmptyString →
  0 ≤ g →
  loadingCount st = g + Z.b2z current →
  counterOr0 (localCounters st) id = Z.b2z current →
  result (loadingRerun id current later) st = List.last later current
  ∧ loadingCount (state_after (loadingRerun id current later) st)
    = g + Z.b2z (List.last later current)
  ∧ counterOr0 (localCounters (state_after (loadingRerun id current later) st)) id
    = Z.b2z (List.last later current).
Proof.
  intros Hid Hg. revert current st.
  induction later as [|isLoading rest IH]; intros current st Hcount Hlocal.
  - done.
  - rewrite last_cons_first. cbn [loadingRerun].
    rewrite !result_bind, !state_after_bind.
    destruct (loadingCleanup_counts id current g st Hid Hg Hcount Hlocal) as (Hc & Hl).
    set (s1 := state_after (loadingCleanup id current) st) in *.
    destruct (loadingEffect_counts id isLoading g s1 Hid Hg Hc Hl) as (Hc' & Hl').
    by apply IH.
Qed.

End Component.

(** X15.  The [Loading] component counts for exactly its current prop.
    For a component whose hook instance has a non-empty id and no start
    outstanding, mounted on a store with a non-negative global counter:
    however often its effect runs again, with whatever values of
    [isLoading], while it is mounted its local counter is 1 if the value
    of the last run is true and 0 otherwise, and the global counter is
    what it was at mount plus that; after unmount the local counter is 0
    and the global counter is what it was at mount. *)
Theorem loading_component_counts (st : Store) (id : string)
    (first : bool) (later : list bool) :
  id ≠ EmptyString →
  0 ≤ loadingCount st →
  result (getLocalCounter id) st = 0 →
  let current := List.last later first in
  let mounted := state_after (loadingMounted id first later) st in
  let unmounted := state_after (loadingUnmounted id first later) st in
  result (loadingMounted id first later) st = current
  ∧ result (getLocalCounter id) mounted = Z.b2z current
  ∧ loadingCount mounted = loadingCount st + Z.b2z current
  ∧ result (getLocalCounter id) unmounted = 0
  ∧ loadingCount unmounted = loadingCount st.
Proof.
  intros Hid Hglobal Hlocal current mounted unmounted.
  rewrite getLocalCounter_result in Hlocal.
  destruct (loadingEffect_counts id first (loadingCount st) st Hid Hglobal eq_refl Hlocal)
    as (Hc & Hl).
  destruct (loadingRerun_counts id later first (loadingCount st)
              (state_after (loadingEffect id first) st) Hid Hglobal Hc Hl)
    as (Hresult & Hc' & Hl').
  assert (Hcurrent : result (loadingMounted id first later) st = current).
  { unfold loadingMounted. by rewrite result_bind. }
  assert (Hmounted : mounted =
            state_after (loadingRerun id first later)
              (state_after (loadingEffect id first) st)).
  { subst mounted. unfold loadingMounted. by rewrite state_after_bind. }
  split; [exact Hcurrent|].
  rewrite !getLocalCounter_result.
  split; [by rewrite Hmounted|]. split; [by rewrite Hmounted|].
  subst unmounted. unfold loadingUnmounted.
  rewrite state_after_bind, Hcurrent. fold mounted.
  destruct (loadingCleanup_counts id current (loadingCount st) mounted Hid Hglobal)
    as (Hc'' & Hl''); [by rewrite Hmounted|by rewrite Hmounted|]. done.
Qed.

(** [<Loading isLoading />] rendered with true, false, true, then
    unmounted. *)
Lemma loading_component_counts_witness :
  loadingCount (state_after (loadingMounted "b" true [false; true]) sampleStore) = 3
  ∧ loadingCount (state_after (loadingUnmounted "b" true [false; true]) sampleStore) = 2.
Proof.
  assert (Hid : "b"%string ≠ EmptyString) by discriminate.
  assert (Hglobal : 0 ≤ loadingCount sampleStore) by (vm_compute; discriminate).
  assert (Hlocal : result (getLocalCounter "b") sampleStore = 0) by reflexivity.
  destruct (loading_component_counts sampleStore "b"%string true [false; true]
              Hid Hglobal Hlocal) as (_ & _ & Hmounted & _ & Hunmounted).
  split; [rewrite Hmounted|rewrite Hunmounted]; reflexivity.
Defined.

(** ** Calls of different callers commute *)

Section Commute.
Implicit Types (st : Store) (id : string) (c : Call).

Lemma Store_eq st1 st2 :
  loadingCount st1 = loadingCount st2 →
  overrideState st1 = overrideState st2 →
  localCounters st1 = localCounters st2 →
  st1 = st2.
Proof. destruct st1, st2. simpl. by intros -> -> ->. Qed.

Lemma stopGate_other_call st c instanceId :
  callKey c ≠ supplied instanceId ∨ supplied instanceId = None →
  stopGate (next st c) instanceId = stopGate st instanceId.
Proof.
  intros Hother. unfold stopGate.
  destruct (supplied instanceId) as [id|]; [|done].
  destruct Hother as [Hother|[=]]. by rewrite other_key_untouched.
Qed.

(** The entry of [id] after a call: a new value when the call is a start
    with that key or a stop with that key that passes the guard, the old
    entry otherwise. *)
Lemma lookup_after_call st c id :
  localCounters (next st c) !! id =
    if decide (callKey c = Some id
               ∧ (isStartCall c = true ∨ 0 < counterOr0 (localCounters st) id))
    then Some (counterOr0 (localCounters (next st c)) id)
    else localCounters st !! id.
Proof.
  destruct c as [instanceId|instanceId|state]; unfold next, callKey, isStartCall.
  - rewrite counterOr0_startedStore, startedStore_lookup.
    destruct (decide (supplied instanceId = Some id)) as [Hkey|Hkey].
    + rewrite decide_True by auto. done.
    + rewrite decide_False; [done|]. by intros [? _].
  - rewrite counterOr0_stoppedStore, stoppedStore_lookup.
    destruct (decide (supplied instanceId = Some id
                      ∧ 0 < counterOr0 (localCounters st) id)) as [Hgate|Hgate].
    + rewrite decide_True; [done|]. destruct Hgate. auto.
    + rewrite decide_False; [done|]. intros [Hkey [[=]|Hpos]]. auto.
  - rewrite decide_False; [done|]. by intros [[=] _].
Qed.

Lemma calls_commute_counts st c1 c2 id :
  callKey c1 ≠ Some id ∨ callKey c2 ≠ Some id →
  counterOr0 (localCounters (next (next st c1) c2)) id
    = counterOr0 (localCounters (next (next st c2) c1)) id.
Proof.
  intros [Hother|Hother].
  - rewrite (other_key_untouched (next st c2) c1 id Hother).
    rewrite (local_after_call (next st c1) c2), (local_after_call st c2).
    by rewrite (other_key_untouched st c1 id Hother).
  - rewrite (other_key_untouched (next st c1) c2 id Hother).
    rewrite (local_after_call (next st c2) c1), (local_after_call st c1).
    by rewrite (other_key_untouched st c2 id Hother).
Qed.

Lemma calls_commute_entries st c1 c2 :
  (∀ id, callKey c1 ≠ Some id ∨ callKey c2 ≠ Some id) →
  localCounters (next (next st c1) c2) = localCounters (next (next st c2) c1).
Proof.
  intros Hkeys. apply map_eq. intros id.
  rewrite (lookup_after_call (next st c1) c2 id), (lookup_after_call (next st c2) c1 id).
  rewrite (calls_commute_counts st c1 c2 id (Hkeys id)).
  rewrite !(lookup_after_call st).
  destruct (Hkeys id) as [Hother|Hother].
  - rewrite (decide_False (P := callKey c1 = Some id ∧ _)) by (by intros [? _]).
    rewrite (decide_False (P := callKey c1 = Some id ∧ _)) by (by intros [? _]).
    by rewrite (other_key_untouched st c1 id Hother),
      (other_key_untouched (next st c2) c1 id Hother).
  - rewrite (decide_False (P := callKey c2 = Some id ∧ _)) by (by intros [? _]).
    rewrite (decide_False (P := callKey c2 = Some id ∧ _)) by (by intros [? _]).
    rewrite (other_key_untouched st c2 id Hother).
    rewrite <- (calls_commute_counts st c1 c2 id (Hkeys id)).
    by rewrite (other_key_untouched (next st c1) c2 id Hother).
Qed.

End Commute.

(** X16.  Callers do not get in each other's way.  On a state of the
    store, two calls that do not carry the same key and are not both
    [overrideLoading] can be made in either order: the state afterwards
    (global counter, override, local counters) is the same. *)
Theorem calls_of_different_callers_commute (st : Store) (c1 c2 : Call) :
  reachable st →
  (∀ id, callKey c1 ≠ Some id ∨ callKey c2 ≠ Some id) →
  isOverrideCall c1 = false ∨ isOverrideCall c2 = false →
  state_after (perform c1;; perform c2) st = state_after (perform c2;; perform c1) st.
Proof.
  intros [u Hst]%reachable_balanced Hkeys Hoverride.
  rewrite !state_after_bind, !state_after_perform.
  assert (Hkeys' : ∀ ca cb, (∀ id, callKey ca ≠ Some id ∨ callKey cb ≠ Some id) →
            ∀ instanceId, cb = CallStop instanceId →
            callKey ca ≠ supplied instanceId ∨ supplied instanceId = None).
  { intros ca cb Hk instanceId ->. simpl in Hk.
    destruct (supplied instanceId) as [id|]; [|by right]. left.
    destruct (Hk id); [done|congruence]. }
  assert (Hgate : ∀ instanceId, stopGate st instanceId = true → 1 ≤ loadingCount st).
  { intros instanceId (id & _ & Hpos)%stopGate_true.
    rewrite getLocalCounter_result in Hpos.
    pose proof (balanced_dominates st u id Hst). lia. }
  assert (Hnonneg : 0 ≤ loadingCount st).
  { destruct Hst as [Hc Hu Hn _]. pose proof (sumCounters_nonneg _ Hn). lia. }
  apply Store_eq.
  - rewrite !global_after_call.
    destruct c1 as [k1|k1|o1], c2 as [k2|k2|o2]; try done.
    + rewrite (stopGate_other_call st (CallStart k1) k2)
        by (by apply (Hkeys' (CallStart k1) (CallStop k2))).
      destruct (stopGate st k2) eqn:Hg2; [|done]. apply Hgate in Hg2. lia.
    + rewrite (stopGate_other_call st (CallStart k2) k1)
        by (apply (Hkeys' (CallStart k2) (CallStop k1)); [|done];
            intros id; destruct (Hkeys id); auto).
      destruct (stopGate st k1) eqn:Hg1; [|done]. apply Hgate in Hg1. lia.
    + rewrite (stopGate_other_call st (CallStop k1) k2)
        by (by apply (Hkeys' (CallStop k1) (CallStop k2))).
      rewrite (stopGate_other_call st (CallStop k2) k1)
        by (apply (Hkeys' (CallStop k2) (CallStop k1)); [|done];
            intros id; destruct (Hkeys id); auto).
      by destruct (stopGate st k1), (stopGate st k2).
  - rewrite !override_after_call.
    destruct c1, c2; try done. by destruct Hoverride.
  - by apply calls_commute_entries.
Qed.

Lemma calls_of_different_callers_commute_witness :
  state_after (perform (CallStop (Some "a"%string));; perform (CallStart (Some "b"%string)))
    sampleStore
  = state_after (perform (CallStart (Some "b"%string));; perform (CallStop (Some "a"%string)))
      sampleStore.
Proof.
  apply calls_of_different_callers_commute.
  - apply sampleStore_reachable.
  - intros id. destruct (decide (id = "a"%string)) as [->|Hne].
    + right. discriminate.
    + left. simpl. congruence.
  - by left.
Defined.

(** ** A wait with calls of the same instance in between *)

(** C8, as stated, fails when the instance acts while its promise is
    pending.  In [asyncUseLoading(asyncUseLoading(p))] the inner call has
    started when the outer call is made, and the inner [finally] runs
    while the outer call waits: the outer call finds the local counter
    at 1 and leaves it at 0.  And when the instance's own [stopLoading]
    is called while the promise is pending, the wrapper's stop at
    settlement finds [isLocalLoading] false and does not call
    [stopLoading]: the run ends with the events of the start and of the
    stop in between, and none from the settlement. *)
Lemma asyncUseLoading_same_key_in_between :
  let inner_started := state_after (localStartLoading "r0") initialStore in
  let outer :=
    asyncUseLoading (E := string) "r0" (fulfilled 1%nat) (localStopLoading "r0") in
  (result (getLocalCounter "r0") inner_started = 1
   ∧ result (getLocalCounter "r0") (state_after outer inner_started) = 0)
  ∧ emitted
      (asyncUseLoading (E := string) "r0" (fulfilled 1%nat) (stopLoading (Some "r0"%string)))
      initialStore
    = [start; change {| payload_isLoading := true; isOverrideState := false |};
       stop; change {| payload_isLoading := false; isOverrideState := false |}].
Proof. split; [split; reflexivity|]. vm_compute. reflexivity. Qed.

(** ** Keys that name a member of [Object.prototype] *)

Section InheritedKeys.
Implicit Types (js : JsCounters) (st : Store) (id : string) (c : Call).
Implicit Types (calls : list Call).

Lemma jsPerformAll_cons c calls js :
  jsPerformAll (c :: calls) js = jsPerformAll calls (jsPerform c js).
Proof. reflexivity. Qed.

Lemma jsRead_sameCounters js st id :
  sameCounters js st →
  ordinaryKey id →
  jsRead (jsLocalCounters js) id = JsNumber <$> localCounters st !! id.
Proof.
  intros (_ & Hentries & _) Hid. unfold jsRead.
  rewrite Hentries, lookup_fmap.
  destruct (localCounters st !! id) as [n|]; simpl; [done|].
  by rewrite bool_decide_eq_false_2.
Qed.

Lemma jsOr0_sameCounters js st id :
  sameCounters js st →
  ordinaryKey id →
  jsOr0 (jsRead (jsLocalCounters js) id) = JsNumber (counterOr0 (localCounters st) id).
Proof.
  intros Hsame Hid. rewrite (jsRead_sameCounters js st id Hsame Hid).
  unfold counterOr0. by destruct (localCounters st !! id).
Qed.

Lemma sameCounters_insert js st id n :
  sameCounters js st →
  ordinaryKey id →
  jsLocalCounters js = JsNumber <$> localCounters st →
  <[id := JsNumber n]> (jsLocalCounters js) = JsNumber <$> <[id := n]> (localCounters st)
  ∧ ∀ id', is_Some (<[id := n]> (localCounters st) !! id') → ordinaryKey id'.
Proof.
  intros (_ & _ & Hkeys) Hid Hentries. split.
  - by rewrite fmap_insert, Hentries.
  - intros id'. rewrite lookup_insert. case_decide as Heq; [by subst|apply Hkeys].
Qed.

Lemma sameCounters_perform js st c :
  sameCounters js st →
  ordinaryCall c →
  sameCounters (jsPerform c js) (next st c).
Proof.
  intros Hsame Hc. pose proof Hsame as (Hcount & Hentries & Hkeys).
  destruct c as [instanceId|instanceId|state]; unfold jsPerform, next.
  - unfold jsStartLoading, startedStore. simpl.
    destruct (supplied instanceId) as [id|] eqn:Hkey; simpl.
    + assert (Hid : ordinaryKey id) by (by apply Hc).
      rewrite (jsOr0_sameCounters js st id Hsame Hid). simpl.
      destruct (sameCounters_insert js st id
                  (counterOr0 (localCounters st) id + 1) Hsame Hid Hentries)
        as (Hinsert & Hkeys').
      split; [simpl; lia|]. by split.
    + split; [simpl; lia|]. by split.
  - unfold jsStopLoading, stoppedStore.
    destruct (supplied instanceId) as [id|] eqn:Hkey; [|done].
    assert (Hid : ordinaryKey id) by (by apply Hc).
    rewrite (jsOr0_sameCounters js st id Hsame Hid). simpl.
    destruct (0 <? counterOr0 (localCounters st) id) eqn:Hpos; [|done].
    apply Z.ltb_lt in Hpos.
    rewrite (jsRead_sameCounters js st id Hsame Hid).
    unfold counterOr0 in *.
    destruct (localCounters st !! id) as [n|] eqn:Hn; simpl in *; [|lia].
    destruct (sameCounters_insert js st id (Z.max 0 (n - 1)) Hsame Hid Hentries)
      as (Hinsert & Hkeys').
    split; [simpl; lia|]. by split.
  - done.
Qed.

Lemma sameCounters_performAll calls js st :
  sameCounters js st →
  Forall ordinaryCall calls →
  sameCounters (jsPerformAll calls js) (state_after (performAll calls) st).
Proof.
  intros Hsame Hcalls. revert js st Hsame.
  induction Hcalls as [|c calls Hc _ IH]; intros js st Hsame; [done|].
  rewrite jsPerformAll_cons, performAll_cons. by apply IH, sameCounters_perform.
Qed.

Lemma sameCounters_initial : sameCounters jsInitial initialStore.
Proof.
  split; [done|]. split; [symmetry; apply fmap_empty|].
  intros id. simpl. rewrite lookup_empty. by intros [n [=]].
Qed.

Lemma member_supplied id :
  id ∈ objectPrototypeMembers → supplied (Some id) = Some id.
Proof.
  intros Hmember. destruct id as [|a s]; [|done]. exfalso. revert Hmember.
  apply (bool_decide_unpack (EmptyString ∉ objectPrototypeMembers)).
  vm_compute. exact I.
Qed.

Lemma textEntry_read id js :
  id ∈ objectPrototypeMembers →
  textEntry id js →
  jsRead (jsLocalCounters js) id = Some (JsInherited id)
  ∨ ∃ ones, jsRead (jsLocalCounters js) id = Some (JsText id ones).
Proof.
  intros Hmember Htext. unfold jsRead.
  destruct (jsLocalCounters js !! id) as [v|] eqn:Hv.
  - right. destruct (Htext v Hv) as [ones ->]. eauto.
  - left. by rewrite bool_decide_eq_true_2.
Qed.

Lemma textEntry_perform id js c :
  id ∈ objectPrototypeMembers →
  textEntry id js →
  textEntry id (jsPerform c js).
Proof.
  intros Hmember Htext.
  destruct c as [instanceId|instanceId|state]; unfold jsPerform; [| |done].
  - unfold jsStartLoading. destruct (supplied instanceId) as [id'|]; [|done].
    intros v. simpl. destruct (decide (id' = id)) as [->|Hne].
    + rewrite lookup_insert_eq. intros [= <-].
      destruct (textEntry_read id js Hmember Htext) as [->|[ones ->]]; simpl; eauto.
    + rewrite lookup_insert_ne by done. apply Htext.
  - unfold jsStopLoading. destruct (supplied instanceId) as [id'|]; [|done].
    destruct (jsPositive (jsOr0 (jsRead (jsLocalCounters js) id'))) eqn:Hgate; [|done].
    intros v. simpl. destruct (decide (id' = id)) as [->|Hne].
    + destruct (textEntry_read id js Hmember Htext) as [Hread|[ones Hread]];
        rewrite Hread in Hgate; discriminate.
    + rewrite lookup_insert_ne by done. apply Htext.
Qed.

Lemma textEntry_performAll id calls js :
  id ∈ objectPrototypeMembers →
  textEntry id js →
  textEntry id (jsPerformAll calls js).
Proof.
  intros Hmember. revert js. induction calls as [|c calls IH]; intros js Htext; [done|].
  rewrite jsPerformAll_cons. by apply IH, textEntry_perform.
Qed.

Lemma jsRead_followsStore js st id :
  followsStore js st →
  ordinaryKey id →
  jsRead (jsLocalCounters js) id = JsNumber <$> localCounters st !! id.
Proof.
  intros (_ & Hordinary & _) Hid. unfold jsRead. rewrite (Hordinary id Hid).
  destruct (localCounters st !! id) as [n|]; simpl; [done|].
  by rewrite bool_decide_eq_false_2.
Qed.

Lemma jsOr0_followsStore js st id :
  followsStore js st →
  ordinaryKey id →
  jsOr0 (jsRead (jsLocalCounters js) id) = JsNumber (counterOr0 (localCounters st) id).
Proof.
  intros Hfollows Hid. rewrite (jsRead_followsStore js st id Hfollows Hid).
  unfold counterOr0. by destruct (localCounters st !! id).
Qed.

Lemma followsStore_insert js st id n c :
  followsStore js st →
  ordinaryKey id →
  (∀ id', id' ∈ objectPrototypeMembers → textEntry id' (jsPerform c js)) →
  jsLocalCounters (jsPerform c js) = <[id := JsNumber n]> (jsLocalCounters js) →
  (∀ id', ordinaryKey id' →
     jsLocalCounters (jsPerform c js) !! id'
     = JsNumber <$> <[id := n]> (localCounters st) !! id')
  ∧ (∀ id', id' ∈ objectPrototypeMembers →
       <[id := n]> (localCounters st) !! id' = None ∧ textEntry id' (jsPerform c js)).
Proof.
  intros (_ & Hordinary & Hmembers) Hid Htext ->. split.
  - intros id' Hid'. destruct (decide (id = id')) as [->|Hne].
    + by rewrite !lookup_insert_eq.
    + rewrite !lookup_insert_ne by done. by apply Hordinary.
  - intros id' Hid'. split; [|by apply Htext].
    rewrite lookup_insert_ne; [by apply Hmembers|]. intros ->. by apply Hid.
Qed.

(** One call: the counters as JavaScript has them after [c] are those of
    the store after [c] with a key of [Object.prototype] left out. *)
Lemma followsStore_perform js st c :
  followsStore js st →
  followsStore (jsPerform c js) (next st (withoutInheritedKey c)).
Proof.
  intros Hfollows. pose proof Hfollows as (Hcount & Hordinary & Hmembers).
  assert (Htext : ∀ id, id ∈ objectPrototypeMembers → textEntry id (jsPerform c js)).
  { intros id Hid. apply textEntry_perform; [done|]. by apply Hmembers. }
  destruct c as [instanceId|instanceId|state];
    unfold withoutInheritedKey, keyIsInherited; [| |done].
  - destruct (supplied instanceId) as [id|] eqn:Hkey.
    + case_bool_decide as Hid.
      * split; [unfold jsPerform, jsStartLoading; rewrite Hkey; simpl; lia|].
        split.
        -- intros id' Hid'. unfold jsPerform, jsStartLoading. rewrite Hkey. simpl.
           rewrite lookup_insert_ne; [by apply Hordinary|]. intros ->. by apply Hid'.
        -- intros id' Hid'. split; [simpl; by apply Hmembers|by apply Htext].
      * split; [unfold jsPerform, jsStartLoading; rewrite Hkey; simpl; lia|].
        unfold next, startedStore. rewrite Hkey.
        apply (followsStore_insert js st id _ (CallStart instanceId) Hfollows Hid Htext).
        unfold jsPerform, jsStartLoading. rewrite Hkey. simpl.
        by rewrite (jsOr0_followsStore js st id Hfollows Hid).
    + split; [unfold jsPerform, jsStartLoading; rewrite Hkey; simpl; lia|].
      unfold next, startedStore, jsPerform, jsStartLoading. rewrite Hkey. simpl.
      split; [done|]. intros id' Hid'. split; [by apply Hmembers|].
      specialize (Htext id' Hid'). unfold jsPerform, jsStartLoading in Htext.
      by rewrite Hkey in Htext.
  - destruct (supplied instanceId) as [id|] eqn:Hkey.
    + case_bool_decide as Hid.
      * assert (Hsame : jsPerform (CallStop instanceId) js = js).
        { unfold jsPerform, jsStopLoading. rewrite Hkey.
          destruct (textEntry_read id js Hid (proj2 (Hmembers id Hid)))
            as [->|[ones ->]]; done. }
        rewrite Hsame. done.
      * unfold next, stoppedStore. rewrite Hkey.
        pose proof (jsOr0_followsStore js st id Hfollows Hid) as Hread.
        destruct (0 <? counterOr0 (localCounters st) id) eqn:Hpos.
        -- assert (Hentry : jsLocalCounters (jsPerform (CallStop instanceId) js)
                            = <[id := JsNumber (Z.max 0 (counterOr0 (localCounters st) id - 1))]>
                                (jsLocalCounters js)).
           { unfold jsPerform, jsStopLoading. rewrite Hkey, Hread. simpl. rewrite Hpos.
             simpl. rewrite (jsRead_followsStore js st id Hfollows Hid).
             apply Z.ltb_lt in Hpos. unfold counterOr0 in *.
             destruct (localCounters st !! id) as [n|]; simpl in *; [done|lia]. }
           split.
           ++ unfold jsPerform, jsStopLoading. rewrite Hkey, Hread. simpl.
              rewrite Hpos. simpl. lia.
           ++ by apply (followsStore_insert js st id _ (CallStop instanceId)).
        -- assert (Hsame : jsPerform (CallStop instanceId) js = js).
           { unfold jsPerform, jsStopLoading. rewrite Hkey, Hread. simpl.
             by rewrite Hpos. }
           rewrite Hsame. done.
    + assert (Hsame : jsPerform (CallStop instanceId) js = js).
      { unfold jsPerform, jsStopLoading. by rewrite Hkey. }
      rewrite Hsame. unfold next, stoppedStore. by rewrite Hkey.
Qed.

Lemma followsStore_performAll calls js st :
  followsStore js st →
  followsStore (jsPerformAll calls js)
    (state_after (performAll (withoutInheritedKey <$> calls)) st).
Proof.
  revert js st. induction calls as [|c calls IH]; intros js st Hfollows; [done|].
  rewrite fmap_cons, jsPerformAll_cons, performAll_cons.
  by apply IH, followsStore_perform.
Qed.

Lemma followsStore_initial : followsStore jsInitial initialStore.
Proof.
  split; [done|]. split.
  - intros id _. simpl. by rewrite !lookup_empty.
  - intros id _. split; [apply lookup_empty|].
    intros v. simpl. by rewrite lookup_empty.
Qed.

Lemma withoutInheritedKey_ordinary calls :
  Forall ordinaryCall calls → withoutInheritedKey <$> calls = calls.
Proof.
  induction 1 as [|c calls Hc _ IH]; [done|].
  rewrite fmap_cons, IH. f_equal.
  destruct c as [instanceId|instanceId|state]; [| |done];
    unfold withoutInheritedKey, keyIsInherited;
    (destruct (supplied instanceId) as [id|] eqn:Hkey; [|done]);
    rewrite bool_decide_eq_false_2; [done| |done|];
    by apply Hc.
Qed.

End InheritedKeys.

(** X17.  The store over integers against the counters as JavaScript
    computes them, for every run of calls from the initial state.  A call
    whose key names a member of [Object.prototype] acts on the counters
    as the same call without a key: after the run the global counter is
    that of the store after the run with those keys left out, and for
    every ordinary key the entry, [getLocalCounter] and [isLocalLoading]
    are those of that store, the entry a number.  If no key of the run
    names a member of [Object.prototype], nothing is left out and all
    entries are the store's. *)
Theorem js_counters_follow_the_store (calls : list Call) :
  let js := jsPerformAll calls jsInitial in
  let st := state_after (performAll (withoutInheritedKey <$> calls)) initialStore in
  (jsLoadingCount js = loadingCount st
   ∧ ∀ id, ordinaryKey id →
       jsLocalCounters js !! id = JsNumber <$> localCounters st !! id
       ∧ jsGetLocalCounter id js = JsNumber (result (getLocalCounter id) st)
       ∧ jsIsLocalLoading id js = result (isLocalLoading id) st)
  ∧ (Forall ordinaryCall calls →
     withoutInheritedKey <$> calls = calls
     ∧ jsLocalCounters js = JsNumber <$> localCounters st).
Proof.
  intros js st.
  pose proof (followsStore_performAll calls _ _ followsStore_initial) as Hfollows.
  fold js st in Hfollows. pose proof Hfollows as (Hcount & Hordinary & _).
  split.
  - split; [done|]. intros id Hid. split; [by apply Hordinary|].
    unfold jsGetLocalCounter, jsIsLocalLoading.
    by rewrite (jsOr0_followsStore js st id Hfollows Hid).
  - intros Hcalls.
    pose proof (withoutInheritedKey_ordinary calls Hcalls) as Hsame.
    split; [done|]. subst js st. rewrite Hsame.
    by destruct (sameCounters_performAll calls _ _ sameCounters_initial Hcalls)
      as (_ & Hentries & _).
Qed.

Lemma js_counters_follow_the_store_witness :
  let calls := [CallStart (Some "a"%string); CallStart (Some "toString"%string);
                CallStop (Some "toString"%string); CallStop (Some "a"%string)] in
  jsLoadingCount (jsPerformAll calls jsInitial) = 1
  ∧ jsGetLocalCounter "a" (jsPerformAll calls jsInitial) = JsNumber 0.
Proof.
  intros calls.
  assert (Hkey : ordinaryKey "a").
  { apply (bool_decide_unpack _). vm_compute. exact I. }
  destruct (js_counters_follow_the_store calls) as ((Hcount & Hqueries) & _).
  split; [rewrite Hcount; reflexivity|].
  destruct (Hqueries "a"%string Hkey) as (_ & -> & _). reflexivity.
Defined.

(** X18.  What the code does with a key that names a member of
    [Object.prototype], such as [constructor] or [toString].  After any
    run of calls from the initial state, for such a key:
    [getLocalCounter] does not return a number (it returns the inherited
    member, or the string a start made of it); [isLocalLoading] returns
    false; [stopLoading] with that key changes no counter; and
    [startLoading] with that key raises the global counter by one, which
    the matching [stopLoading] does not take back. *)
Theorem inherited_key_is_never_counted (calls : list Call) (id : string) :
  id ∈ objectPrototypeMembers →
  let js := jsPerformAll calls jsInitial in
  (∀ n, jsGetLocalCounter id js ≠ JsNumber n)
  ∧ jsIsLocalLoading id js = false
  ∧ jsStopLoading (Some id) js = js
  ∧ jsLoadingCount (jsStopLoading (Some id) (jsStartLoading (Some id) js))
    = jsLoadingCount js + 1.
Proof.
  intros Hmember js.
  assert (Htext : ∀ calls', textEntry id (jsPerformAll calls' jsInitial)).
  { intros calls'. apply textEntry_performAll; [done|].
    intros v. simpl. by rewrite lookup_empty. }
  assert (Hidle : ∀ js', textEntry id js' →
            (∀ n, jsGetLocalCounter id js' ≠ JsNumber n)
            ∧ jsIsLocalLoading id js' = false
            ∧ jsStopLoading (Some id) js' = js').
  { intros js' Htext'. unfold jsGetLocalCounter, jsIsLocalLoading, jsStopLoading.
    rewrite (member_supplied id Hmember).
    destruct (textEntry_read id js' Hmember Htext') as [->|[ones ->]]; by simpl. }
  destruct (Hidle js (Htext calls)) as (Hvalue & Hlocal & Hstop).
  split; [done|]. split; [done|]. split; [done|].
  assert (Hstarted : jsStartLoading (Some id) js
                     = jsPerformAll (calls ++ [CallStart (Some id)]) jsInitial).
  { subst js. unfold jsPerformAll. by rewrite foldl_app. }
  destruct (Hidle (jsStartLoading (Some id) js)) as (_ & _ & ->).
  { rewrite Hstarted. apply Htext. }
  unfold jsStartLoading. by rewrite (member_supplied id Hmember).
Qed.

Lemma inherited_key_is_never_counted_witness :
  jsIsLocalLoading "toString"
    (jsPerformAll [CallStart (Some "toString"%string)] jsInitial) = false
  ∧ jsLoadingCount
      (jsStopLoading (Some "toString"%string)
         (jsStartLoading (Some "toString"%string)
            (jsPerformAll [CallStart (Some "toString"%string)] jsInitial)))
    = 2.
Proof.
  assert (Hmember : "toString"%string ∈ objectPrototypeMembers).
  { apply (bool_decide_unpack _). vm_compute. exact I. }
  destruct (inherited_key_is_never_counted
              [CallStart (Some "toString"%string)] "toString"%string Hmember)
    as (_ & Hlocal & _ & Hcount).
  split; [exact Hlocal|]. rewrite Hcount. reflexivity.
Defined.

(** C4, on the code.  [startLoading("constructor")] on the initial store:
    before the call [getLocalCounter("constructor")] is the function
    inherited from [Object.prototype]; the call stores the string made of
    that function's text and [1] under [localCounters.constructor], and
    that string is what [getLocalCounter("constructor")] returns
    afterwards.  The local counter of this key is not a number, so not a
    number that is at least 0; the global counter is 1. *)
Lemma constructor_entry_is_no_count :
  let started := jsStartLoading (Some "constructor"%string) jsInitial in
  jsGetLocalCounter "constructor" jsInitial = JsInherited "constructor"
  ∧ jsLocalCounters started !! "constructor"%string = Some (JsText "constructor" 0)
  ∧ jsGetLocalCounter "constructor" started = JsText "constructor" 0
  ∧ jsLoadingCount started = 1.
Proof. vm_compute. repeat split. Qed.

(** C10, on the code.  After [startLoading("constructor")] and
    [stopLoading("constructor")] from the initial store the global
    counter is 1, the only entry of [localCounters] is a string and no
    start was made without a key: the global counter exceeds what the
    local counters add up to by a start that did carry a key.  The store
    over integers, which takes the entry for a count, has the global
    counter back at 0 here. *)
Lemma constructor_start_is_not_taken_back :
  let calls := [CallStart (Some "constructor"%string);
                CallStop (Some "constructor"%string)] in
  jsLoadingCount (jsPerformAll calls jsInitial) = 1
  ∧ jsLocalCounters (jsPerformAll calls jsInitial)
    = {[ "constructor"%string := JsText "constructor" 0 ]}
  ∧ unkeyedStarts calls = 0
  ∧ loadingCount (state_after (performAll calls) initialStore) = 0.
Proof. vm_compute. repeat split. Qed.

(** X19.  Whatever calls are made on the store, in whatever order and
    with whatever keys (in particular with more stops than starts), after
    each of them the global counter is at least 0, and the local counter
    of every key that names no member of [Object.prototype] is a number
    that is at least 0.  The counters are those JavaScript computes;
    [take k calls] is the run up to the [k]-th call. *)
Theorem js_counters_never_negative (calls : list Call) (k : nat) :
  let js := jsPerformAll (take k calls) jsInitial in
  0 ≤ jsLoadingCount js
  ∧ ∀ id, ordinaryKey id → ∃ n, jsGetLocalCounter id js = JsNumber n ∧ 0 ≤ n.
Proof.
  intros js.
  pose proof (followsStore_performAll (take k calls) _ _ followsStore_initial)
    as Hfollows.
  fold js in Hfollows. pose proof Hfollows as (Hcount & _).
  destruct (balanced_performAll (withoutInheritedKey <$> take k calls) _ _
              balanced_initial) as [Hbalance Hu Hnonneg _].
  pose proof (sumCounters_nonneg _ Hnonneg).
  split; [lia|]. intros id Hid. eexists. split.
  - unfold jsGetLocalCounter. by apply jsOr0_followsStore.
  - by apply counterOr0_nonneg.
Qed.

(** X20.  The global counter against the local counters, as JavaScript
    computes them, after any run of calls from the initial state.  The
    global counter is at least the local counter of each key that names
    no member of [Object.prototype].  It exceeds the sum of the entries
    under those keys by exactly the number of starts made without a key
    or with a key that names a member of [Object.prototype]; no entry
    under such a name is a number.  If no key of the run names a member
    of [Object.prototype], all entries are numbers and the global counter
    exceeds their sum by exactly the number of starts made without a
    key. *)
Theorem js_global_counter_dominates (calls : list Call) :
  let js := jsPerformAll calls jsInitial in
  (∀ id, ordinaryKey id →
     ∃ n, jsGetLocalCounter id js = JsNumber n ∧ n ≤ jsLoadingCount js)
  ∧ (∃ counters,
       (∀ id, ordinaryKey id → jsLocalCounters js !! id = JsNumber <$> counters !! id)
       ∧ (∀ id, id ∈ objectPrototypeMembers →
            counters !! id = None ∧ ∀ n, jsLocalCounters js !! id ≠ Some (JsNumber n))
       ∧ jsLoadingCount js - sumCounters counters
         = unkeyedStarts (withoutInheritedKey <$> calls))
  ∧ (Forall ordinaryCall calls →
     ∃ counters,
       jsLocalCounters js = JsNumber <$> counters
       ∧ jsLoadingCount js - sumCounters counters = unkeyedStarts calls
       ∧ sumCounters counters ≤ jsLoadingCount js).
Proof.
  intros js.
  pose proof (followsStore_performAll calls _ _ followsStore_initial) as Hfollows.
  fold js in Hfollows. pose proof Hfollows as (Hcount & Hordinary & Hmembers).
  destruct (balanced_performAll (withoutInheritedKey <$> calls) _ _ balanced_initial)
    as [Hbalance Hu Hnonneg _].
  split; [|split].
  - intros id Hid. eexists. split.
    + unfold jsGetLocalCounter. by apply jsOr0_followsStore.
    + pose proof (counterOr0_le_sum _ id Hnonneg). lia.
  - eexists. split; [exact Hordinary|]. split; [|lia].
    intros id Hid. destruct (Hmembers id Hid) as [Hnone Htext].
    split; [done|]. intros n Hn. by destruct (Htext _ Hn).
  - intros Hcalls.
    pose proof (withoutInheritedKey_ordinary calls Hcalls) as Hsame.
    rewrite Hsame in *.
    destruct (sameCounters_performAll calls _ _ sameCounters_initial Hcalls)
      as (_ & Hentries & _).
    eexists. split; [exact Hentries|]. lia.
Qed.

Lemma js_global_counter_dominates_witness :
  let calls := [CallStart (Some "a"%string); CallStart None; CallStop (Some "a"%string)] in
  ∃ counters,
    jsLocalCounters (jsPerformAll calls jsInitial) = JsNumber <$> counters
    ∧ jsLoadingCount (jsPerformAll calls jsInitial) - sumCounters counters = 1.
Proof.
  intros calls.
  destruct (js_global_counter_dominates calls) as (_ & _ & Hexact).
  destruct Hexact as (counters & Hentries & Hdiff & _).
  - repeat constructor; intros id [= <-];
      apply (bool_decide_unpack _); vm_compute; exact I.
  - exists counters. split; [exact Hentries|]. rewrite Hdiff. reflexivity.
Defined.
